(** * mcp-gsc-vdl: account manager and Search Console analytics

    A shallow embedding of [src/accounts.ts] (class [AccountManager]) and of
    the Search Console service that follows it in the same file (class
    [SearchConsoleService]), with the properties of the specification that
    concern them.

    Conventions of the embedding.
    - A JavaScript [number] is the rational it denotes ([Q]); arithmetic is
      exact, so the rounding of IEEE doubles, [NaN] and the infinities are
      outside the model.  The only place where the source could produce a
      non-finite number from finite ones is a division, which is modelled
      as a checked operation ([Number_div]).
    - A [string] is a sequence of bytes; [toLowerCase] acts on ASCII letters.
    - A value of type [T | undefined] (or [| null]) is an [option T].
    - Objects that the source shares and mutates (account records, OAuth
      clients) live in a store and are named by their address.
    - A [Map] is an association list in insertion order, as iteration over a
      JavaScript [Map] observes it.
    - [async] functions are computations in a state-and-exception monad; an
      exception keeps the state reached when it was thrown.
    - What lies outside the two classes is a parameter: the identity
      provider and the clock for the manager, the Google APIs and the URL
      parser for the service, [JSON.parse] and the file system for
      [AccountManager.fromEnvironment]. *)

From Stdlib Require Import List String Ascii Bool Arith ZArith QArith Qround Qabs.
From Stdlib Require Import Lia Lqa Permutation Sorted DecimalString.
Import ListNotations.

Set Implicit Arguments.
Close Scope Q_scope.
Open Scope string_scope.

(* ================================================================== *)
(** * JavaScript values and built-ins used by the source *)
(* ================================================================== *)

Module JS.

Definition number := Q.

(** ** Truthiness and the [||] operator *)

Definition truthy_number (x : option number) : bool :=
  match x with
  | Some q => negb (Qeq_bool q 0%Q)
  | None => false
  end.

Definition truthy_string (x : option string) : bool :=
  match x with
  | Some s => negb (String.eqb s "")
  | None => false
  end.

(** [x || 0] on a [number | null | undefined]. *)
Definition number_or_zero (x : option number) : number :=
  match x with
  | Some q => if truthy_number x then q else 0%Q
  | None => 0%Q
  end.

(** [x || d] on a [string | undefined] with a string default. *)
Definition string_or (x : option string) (d : string) : string :=
  match x with
  | Some s => if truthy_string x then s else d
  | None => d
  end.

(** A parameter with a default value: [f(x = d)]. *)
Definition or_default {A : Type} (x : option A) (d : A) : A :=
  match x with
  | Some v => v
  | None => d
  end.

(** [x || undefined] on a string and on a number. *)
Definition string_or_undefined (x : option string) : option string :=
  if truthy_string x then x else None.

Definition number_or_undefined (x : option number) : option number :=
  if truthy_number x then x else None.

(** ** Numbers *)

Definition Number_lt (a b : number) : bool := negb (Qle_bool b a).
Definition Number_le (a b : number) : bool := Qle_bool a b.
Definition Number_gt (a b : number) : bool := Number_lt b a.
Definition Number_ge (a b : number) : bool := Number_le b a.

(** [Math.round]: the nearest integer, a tie going towards +infinity. *)
Definition Math_round (x : number) : number :=
  inject_Z (Qfloor (x + (1 # 2))%Q).

Definition Math_max (a b : number) : number :=
  if Number_lt a b then b else a.

(** A division of finite numbers is finite unless the divisor is zero, in
    which case JavaScript answers an infinity or [NaN] and raises nothing. *)
Inductive quotient : Type :=
| Finite (q : number)
| NonFinite.

Definition Number_div (a b : number) : quotient :=
  if Qeq_bool b 0%Q then NonFinite else Finite (a / b)%Q.

(** The integer [n] for which [n / 10^digits - x] is as close to zero as
    possible, the larger one on a tie; [x] is non-negative here, as in
    [Number.prototype.toFixed], which treats the sign apart. *)
Definition toFixed_digits (digits : nat) (x : number) : Z :=
  Qfloor (x * inject_Z (10 ^ Z.of_nat digits) + (1 # 2))%Q.

Definition toFixed_threshold : number := inject_Z (10 ^ 21).

(** [Number(x.toFixed(digits))]: from 10^21 on [toFixed] prints the number
    itself, which reads back unchanged. *)
Definition Number_toFixed (digits : nat) (x : number) : number :=
  if Number_le toFixed_threshold (Qabs x) then x
  else
    let n := toFixed_digits digits (Qabs x) in
    let r := (inject_Z n / inject_Z (10 ^ Z.of_nat digits))%Q in
    if Number_lt x 0%Q then (- r)%Q else r.

(** [r] is [x] rounded to [digits] decimals: a multiple of 10^-digits at
    most half a unit of the last decimal away from [x]. *)
Definition rounded_to (digits : nat) (x r : number) : Prop :=
  (exists n : Z, (r * inject_Z (10 ^ Z.of_nat digits) == inject_Z n)%Q)
  /\ (Qabs (r - x) * inject_Z (2 * 10 ^ Z.of_nat digits) <= 1)%Q.

Definition decimal_of_Z (z : Z) : string :=
  NilZero.string_of_uint (N.to_uint (Z.to_N z)).

Fixpoint pad_zeros (width : nat) (s : string) : string :=
  match width with
  | O => s
  | S w => if Nat.ltb (String.length s) width then pad_zeros w ("0" ++ s) else s
  end.

(** [x.toFixed(digits)] as text, for |x| below 10^21 (beyond it JavaScript
    switches to exponent notation, which is not rendered: the integer part
    is printed in full).  A negative number keeps its sign even when it
    rounds to zero. *)
Definition toFixed (digits : nat) (x : number) : string :=
  let n := toFixed_digits digits (Qabs x) in
  let p := (10 ^ Z.of_nat digits)%Z in
  let sign := if Number_lt x 0%Q then "-" else "" in
  let whole := decimal_of_Z (n / p) in
  match digits with
  | O => sign ++ whole
  | _ => sign ++ whole ++ "." ++ pad_zeros digits (decimal_of_Z (n mod p))
  end.

(** ** Strings *)

Definition lower_ascii (c : ascii) : ascii :=
  let n := nat_of_ascii c in
  if (Nat.leb 65 n && Nat.leb n 90)%bool then ascii_of_nat (n + 32) else c.

Fixpoint toLowerCase (s : string) : string :=
  match s with
  | EmptyString => EmptyString
  | String c s' => String (lower_ascii c) (toLowerCase s')
  end.

(** [hay.includes(needle)] *)
Fixpoint includes (hay needle : string) : bool :=
  String.prefix needle hay
  || match hay with
     | EmptyString => false
     | String _ hay' => includes hay' needle
     end.

(** [xs.join(sep)] *)
Definition join (xs : list string) (sep : string) : string :=
  String.concat sep xs.

(** ** Thrown values *)

Inductive thrown : Type :=
| Error (message : string)          (* an instance of [Error] *)
| Thrown (description : string).    (* any other thrown value *)

Definition instanceof_Error (e : thrown) : bool :=
  match e with
  | Error _ => true
  | Thrown _ => false
  end.

(** [e.message], read only on instances of [Error]. *)
Definition message_of (e : thrown) : string :=
  match e with
  | Error m => m
  | Thrown _ => ""
  end.

(** The text a thrown value gives inside a template literal. *)
Definition thrown_toString (e : thrown) : string :=
  match e with
  | Error m => if String.eqb m "" then "Error" else "Error: " ++ m
  | Thrown d => d
  end.

(** ** Maps in insertion order *)

Section MAP.
Variables K V : Type.
Variable K_dec : forall a b : K, {a = b} + {a <> b}.

Definition Map := list (K * V).

Fixpoint Map_get (k : K) (m : Map) : option V :=
  match m with
  | [] => None
  | (k', v) :: m' => if K_dec k k' then Some v else Map_get k m'
  end.

(** [m.set(k, v)]: a key already present keeps its place. *)
Fixpoint Map_set (k : K) (v : V) (m : Map) : Map :=
  match m with
  | [] => [(k, v)]
  | (k', v') :: m' =>
      if K_dec k k' then (k, v) :: m' else (k', v') :: Map_set k v m'
  end.

Fixpoint Map_delete (k : K) (m : Map) : Map :=
  match m with
  | [] => []
  | (k', v') :: m' =>
      if K_dec k k' then Map_delete k m' else (k', v') :: Map_delete k m'
  end.

(** [new Map(entries)] *)
Definition Map_of (entries : list (K * V)) : Map :=
  fold_left (fun m e => Map_set (fst e) (snd e) m) entries [].
End MAP.

(** ** Arrays *)

Section ARRAY.
Variable A : Type.

(** [Array.prototype.sort] with a comparison function is a stable sort:
    [b] goes before [a] only when [compareFn a b] is positive. *)
Variable compareFn : A -> A -> number.

Fixpoint sort_insert (x : A) (l : list A) : list A :=
  match l with
  | [] => [x]
  | y :: l' =>
      if Number_gt (compareFn x y) 0%Q then y :: sort_insert x l'
      else x :: y :: l'
  end.

Definition Array_sort (l : list A) : list A :=
  fold_right sort_insert [] l.

(** The integer part of a number, towards zero. *)
Definition ToIntegerOrInfinity (x : number) : Z :=
  if Number_lt x 0%Q then Qceiling x else Qfloor x.

(** [l.slice(0, end)]: a negative [end] counts from the end of the array;
    [slice_length] is the number of elements kept out of [len]. *)
Definition slice_length (end_ : number) (len : nat) : nat :=
  let rel := ToIntegerOrInfinity end_ in
  Z.to_nat (if (rel <? 0)%Z then Z.max (Z.of_nat len + rel) 0
            else Z.min rel (Z.of_nat len)).

Definition Array_slice0 (end_ : number) (l : list A) : list A :=
  firstn (slice_length end_ (List.length l)) l.
End ARRAY.

(** ** Asynchronous code: state and exceptions *)

Definition M (S A : Type) : Type := S -> (thrown + A) * S.

Definition ret {S A} (a : A) : M S A := fun s => (inr a, s).

Definition throw {S A} (e : thrown) : M S A := fun s => (inl e, s).

Definition bind {S A B} (m : M S A) (k : A -> M S B) : M S B :=
  fun s =>
    match m s with
    | (inr a, s') => k a s'
    | (inl e, s') => (inl e, s')
    end.

(** [try { m } catch (e) { handler e }] *)
Definition try_catch {S A} (m : M S A) (handler : thrown -> M S A) : M S A :=
  fun s =>
    match m s with
    | (inr a, s') => (inr a, s')
    | (inl e, s') => handler e s'
    end.

Definition get {S} : M S S := fun s => (inr s, s).
Definition modify {S} (f : S -> S) : M S unit := fun s => (inr tt, f s).

End JS.

Import JS.

Declare Scope js_scope.
Delimit Scope js_scope with js.
Notation "x <- m ;; k" := (bind m (fun x => k))
  (at level 61, m at next level, right associativity) : js_scope.
Notation "m ;;; k" := (bind m (fun _ => k))
  (at level 61, right associativity) : js_scope.

Open Scope js_scope.

(* ================================================================== *)
(** * AccountManager *)
(* ================================================================== *)

Module Accounts.

(** Addresses of account records and of OAuth2 clients in the store. *)
Definition loc := nat.
Definition cloc := nat.

Record GSCAccount : Type := mkAccount {
  id : string;
  email : string;
  refreshToken : string;
  accessToken : option string;
  expiresAt : option number
}.

(** [Credentials] of google-auth-library, the fields the source touches. *)
Record Credentials : Type := mkCredentials {
  refresh_token : option string;
  access_token : option string;
  expiry_date : option number
}.

(** An [OAuth2Client]: its constructor arguments, its current credentials
    and the account captured by the listener the source registers for the
    ['tokens'] event (none before [client.on] ran). *)
Record OAuth2Client : Type := mkClient {
  client_id : string;
  client_secret : string;
  redirect_uri : string;
  credentials : Credentials;
  tokens_listener : option loc
}.

Record AccountManager : Type := mkManager {
  accounts : Map string loc;
  authClients : Map string cloc;
  clientId : string;
  clientSecret : string
}.

(** The objects the manager refers to. *)
Record Store : Type := mkStore {
  account_at : loc -> GSCAccount;
  account_next : loc;
  client_at : cloc -> OAuth2Client;
  client_next : cloc
}.

(** What the manager does to the outside, in order. *)
Inductive event : Type :=
| NewOAuth2Client (c : cloc)
| RefreshAccessToken (c : cloc).

Definition AccountInfo : Type := (string * string)%type.   (* { id, email } *)

Section MANAGER.

(** The identity provider and the clock. *)
Variable World : Type.
Variable Date_now : World -> number.
Variable token_endpoint : Credentials -> World -> (thrown + Credentials) * World.

Record State : Type := mkState {
  manager : AccountManager;
  store : Store;
  world : World;
  trace : list event
}.

Definition set_manager (f : AccountManager -> AccountManager) (s : State) : State :=
  mkState (f (manager s)) (store s) (world s) (trace s).

Definition set_store (f : Store -> Store) (s : State) : State :=
  mkState (manager s) (f (store s)) (world s) (trace s).

Definition log (e : event) : M State unit :=
  modify (fun s => mkState (manager s) (store s) (world s) (trace s ++ [e])%list).

(** ** The store *)

Definition undefined_account : GSCAccount := mkAccount "" "" "" None None.

Definition empty_store : Store :=
  mkStore (fun _ => undefined_account) 0
          (fun _ => mkClient "" "" "" (mkCredentials None None None) None) 0.

Definition read_account (l : loc) : M State GSCAccount :=
  fun s => (inr (account_at (store s) l), s).

Definition write_account (l : loc) (a : GSCAccount) : M State unit :=
  modify (set_store (fun h =>
    mkStore (fun l' => if Nat.eqb l' l then a else account_at h l')
            (account_next h) (client_at h) (client_next h))).

Definition new_account (a : GSCAccount) : M State loc :=
  fun s =>
    let h := store s in
    let l := account_next h in
    (inr l,
     set_store (fun _ =>
       mkStore (fun l' => if Nat.eqb l' l then a else account_at h l')
               (S l) (client_at h) (client_next h)) s).

Definition read_client (c : cloc) : M State OAuth2Client :=
  fun s => (inr (client_at (store s) c), s).

Definition write_client (c : cloc) (o : OAuth2Client) : M State unit :=
  modify (set_store (fun h =>
    mkStore (account_at h) (account_next h)
            (fun c' => if Nat.eqb c' c then o else client_at h c')
            (client_next h))).

Definition new_client (o : OAuth2Client) : M State cloc :=
  fun s =>
    let h := store s in
    let c := client_next h in
    (inr c,
     set_store (fun _ =>
       mkStore (account_at h) (account_next h)
               (fun c' => if Nat.eqb c' c then o else client_at h c')
               (S c)) s).

(** ** The class *)

(** [new AccountManager(clientId, clientSecret)] *)
Definition constructor (clientId clientSecret : string) : AccountManager :=
  mkManager [] [] clientId clientSecret.

Definition initial (clientId clientSecret : string) (w : World) : State :=
  mkState (constructor clientId clientSecret) empty_store w [].

(** [addAccount(account)]: the record is stored by reference under its id
    and under its lower-cased e-mail, and both cache keys are cleared. *)
Definition addAccount (account : loc) : M State unit :=
  a <- read_account account ;;
  modify (set_manager (fun m =>
    mkManager
      (Map_set string_dec (toLowerCase (email a)) account
         (Map_set string_dec (id a) account (accounts m)))
      (Map_delete string_dec (toLowerCase (email a))
         (Map_delete string_dec (id a) (authClients m)))
      (clientId m) (clientSecret m))).

(** [registerAccount(id, email, refreshToken, accessToken?)] *)
Definition registerAccount (id email refreshToken : string)
    (accessToken : option string) : M State unit :=
  account <- new_account (mkAccount id email refreshToken accessToken None) ;;
  addAccount account.

Fixpoint listAccounts_loop (h : Store) (entries : list (string * loc))
    (seen : list string) : list AccountInfo :=
  match entries with
  | [] => []
  | (_, account) :: rest =>
      let a := account_at h account in
      if existsb (String.eqb (id a)) seen then listAccounts_loop h rest seen
      else (id a, email a) :: listAccounts_loop h rest (id a :: seen)
  end.

(** [listAccounts()] *)
Definition listAccounts (s : State) : list AccountInfo :=
  listAccounts_loop (store s) (accounts (manager s)) [].

(** [getAccount(idOrEmail)] *)
Definition getAccount (idOrEmail : string) (s : State) : option loc :=
  match Map_get string_dec idOrEmail (accounts (manager s)) with
  | Some account => Some account
  | None => Map_get string_dec (toLowerCase idOrEmail) (accounts (manager s))
  end.

(** [get count()] *)
Definition count (s : State) : nat := List.length (listAccounts s).

(** *** The OAuth2 client, as the source uses it *)

(** The listener of the ['tokens'] event registered by [getAuthClient]. *)
Definition on_tokens (account : loc) (tokens : Credentials) : M State unit :=
  if truthy_string (access_token tokens) then
    a <- read_account account ;;
    write_account account
      (mkAccount (id a) (email a) (refreshToken a) (access_token tokens)
         (if truthy_number (expiry_date tokens) then expiry_date tokens
          else expiresAt a))
  else ret tt.

(** [client.setCredentials(credentials)] *)
Definition setCredentials (c : cloc) (cr : Credentials) : M State unit :=
  o <- read_client c ;;
  write_client c
    (mkClient (client_id o) (client_secret o) (redirect_uri o) cr
       (tokens_listener o)).

(** [client.on('tokens', listener)] *)
Definition on_ (c : cloc) (account : loc) : M State unit :=
  o <- read_client c ;;
  write_client c
    (mkClient (client_id o) (client_secret o) (redirect_uri o)
       (credentials o) (Some account)).

Definition ask_token_endpoint (cr : Credentials) : M State Credentials :=
  fun s =>
    let (r, w) := token_endpoint cr (world s) in
    (r, mkState (manager s) (store s) w (trace s)).

(** [client.refreshAccessToken()]: the library asks the identity provider
    with the client's credentials; when that succeeds it emits ['tokens']
    and keeps the new credentials. *)
Definition refreshAccessToken (c : cloc) : M State Credentials :=
  o <- read_client c ;;
  log (RefreshAccessToken c) ;;;
  tokens <- ask_token_endpoint (credentials o) ;;
  match tokens_listener o with
  | Some account => on_tokens account tokens
  | None => ret tt
  end ;;;
  setCredentials c tokens ;;;
  ret tokens.

(** *** [getAuthClient(idOrEmail?)] *)

Definition AccountNotFound (idOrEmail : string) : thrown :=
  Error ("Account not found: " ++ idOrEmail).

Definition NoAccountsConfigured : thrown :=
  Error "No accounts configured. Use register_account or set GSC_ACCOUNTS_JSON/GSC_ACCOUNTS_FILE".

Definition TokenRefreshFailed (accountEmail : string) (cause : thrown) : thrown :=
  Error ("Failed to refresh token for " ++ accountEmail ++ ": " ++ thrown_toString cause).

(** Reading a property of [undefined]. *)
Definition TypeError_undefined : thrown :=
  Error "Cannot read properties of undefined".

(** Lines 152-166: the account to use, the first listed one without a
    selector. *)
Definition resolveAccount (idOrEmail : option string) : M State loc :=
  if truthy_string idOrEmail then
    let selector := string_or idOrEmail "" in
    s <- get ;;
    match getAccount selector s with
    | Some account => ret account
    | None => throw (AccountNotFound selector)
    end
  else
    s <- get ;;
    match listAccounts s with
    | [] => throw NoAccountsConfigured
    | first :: _ =>
        match getAccount (fst first) s with
        | Some account => ret account
        | None => throw TypeError_undefined
        end
    end.

(** Lines 168-191: the cached client of the account's id, or a new one
    seeded with the account's tokens and stored in the cache. *)
Definition cachedClient (account : loc) : M State cloc :=
  a <- read_account account ;;
  let cacheKey := id a in
  s <- get ;;
  match Map_get string_dec cacheKey (authClients (manager s)) with
  | Some client => ret client
  | None =>
      client <- new_client
        (mkClient (clientId (manager s)) (clientSecret (manager s))
           "http://localhost" (mkCredentials None None None) None) ;;
      log (NewOAuth2Client client) ;;;
      setCredentials client
        (mkCredentials (Some (refreshToken a)) (accessToken a) None) ;;;
      on_ client account ;;;
      modify (set_manager (fun m =>
        mkManager (accounts m)
          (Map_set string_dec cacheKey client (authClients m))
          (clientId m) (clientSecret m))) ;;;
      ret client
  end.

(** [tokens.expiry_date || account.expiresAt || 0] *)
Definition freshest_expiry (tokens : Credentials) (a : GSCAccount) : number :=
  if truthy_number (expiry_date tokens) then number_or_zero (expiry_date tokens)
  else number_or_zero (expiresAt a).

(** [!tokens.access_token || expiresAt < now + 60000] *)
Definition needs_refresh (tokens : Credentials) (a : GSCAccount) (now : number) : bool :=
  negb (truthy_string (access_token tokens))
  || Number_lt (freshest_expiry tokens a) (now + 60000)%Q.

(** Lines 193-208: refresh when the token is missing or about to expire. *)
Definition ensureValidToken (client : cloc) (account : loc) : M State unit :=
  o <- read_client client ;;
  let tokens := credentials o in
  s <- get ;;
  let now := Date_now (world s) in
  a <- read_account account ;;
  if needs_refresh tokens a now then
    try_catch
      (credentials <- refreshAccessToken client ;;
       setCredentials client credentials ;;;
       a' <- read_account account ;;
       write_account account
         (mkAccount (id a') (email a') (refreshToken a')
            (string_or_undefined (access_token credentials))
            (number_or_undefined (expiry_date credentials))))
      (fun e => a' <- read_account account ;;
                throw (TokenRefreshFailed (email a') e))
  else ret tt.

Definition getAuthClient (idOrEmail : option string) : M State (cloc * loc) :=
  account <- resolveAccount idOrEmail ;;
  client <- cachedClient account ;;
  ensureValidToken client account ;;;
  ret (client, account).

End MANAGER.

End Accounts.

(* ================================================================== *)
(** * SearchConsoleService *)
(* ================================================================== *)

Module SearchConsole.

(** A row of [searchanalytics.query] ([ApiDataRow]). *)
Record ApiDataRow : Type := mkRow {
  keys : option (list string);
  clicks : option number;
  impressions : option number;
  ctr : option number;
  position : option number
}.

(** The request bodies this class builds. *)
Record SearchAnalyticsRequest : Type := mkRequest {
  startDate : string;
  endDate : string;
  dimensions : list string;
  rowLimit : number;
  dataState : string
}.

(** [result.data] of a query. *)
Record SearchAnalyticsData : Type := mkData {
  rows : option (list ApiDataRow)
}.

(** The calls the class makes on the Google APIs. *)
Inductive request : Type :=
| sites_list
| searchanalytics_query (siteUrl : string) (requestBody : SearchAnalyticsRequest)
| urlInspection_index_inspect (siteUrl inspectionUrl languageCode : string)
| urlNotifications_publish (url type : string)
| sitemaps_list (siteUrl : string)
| sitemaps_submit (siteUrl feedpath : string).

(** The two fields of a parsed [URL] that the source reads. *)
Record URL : Type := mkURL {
  protocol : string;
  hostname : string
}.

Inductive Opportunity : Type := High | Medium | Low.

Record QuickWin : Type := mkQuickWin {
  query : string;
  page : string;
  currentPosition : number;
  qw_impressions : number;
  currentClicks : number;
  currentCtr : number;
  potentialClicks : number;
  additionalClicks : number;
  opportunity : Opportunity;
  optimizationNote : string
}.

Record Thresholds : Type := mkThresholds {
  minImpressions : number;
  maxCtr : number;
  positionRangeMin : number;
  positionRangeMax : number;
  limit : number
}.

Record Metrics : Type := mkMetrics {
  m_clicks : number;
  m_impressions : number;
  m_position : number;
  m_ctr : number
}.

(** [null] is [None]; a number may be non-finite. *)
Definition percentage : Type := option quotient.

Record Change : Type := mkChange {
  ch_clicks : number;
  clicksPercent : percentage;
  ch_impressions : number;
  ch_position : number;
  ch_ctr : number
}.

Record Comparison : Type := mkComparison {
  cmp_keys : option (list string);
  current : Metrics;
  previous : Metrics;
  change : Change
}.

Record PeriodTotals : Type := mkPeriod {
  p_start : string;
  p_end : string;
  p_clicks : number;
  p_impressions : number
}.

Record SummaryChange : Type := mkSummaryChange {
  sc_clicks : number;
  sc_clicksPercent : percentage;
  sc_impressions : number
}.

Record Summary : Type := mkSummary {
  currentPeriod : PeriodTotals;
  previousPeriod : PeriodTotals;
  summary_change : SummaryChange
}.

Record ComparePeriodsResult : Type := mkResult {
  comparison : list Comparison;
  summary : Summary
}.

Definition key_dec : forall a b : option string, {a = b} + {a <> b}.
Proof. decide equality; apply string_dec. Defined.

Section SERVICE.

(** The Google APIs behind the authenticated client, and the platform's
    URL parser ([None] when [new URL] throws). *)
Variable World : Type.
Variable Payload : Type.
Variable searchanalytics :
  string -> SearchAnalyticsRequest -> World -> (thrown + SearchAnalyticsData) * World.
Variable googleapis : request -> World -> (thrown + Payload) * World.
Variable URL_parse : string -> option URL.

Record State : Type := mkState {
  world : World;
  requests : list request      (* the calls made so far, oldest first *)
}.

Definition call_searchanalytics (siteUrl : string)
    (requestBody : SearchAnalyticsRequest) : M State SearchAnalyticsData :=
  fun s =>
    let (r, w) := searchanalytics siteUrl requestBody (world s) in
    (r, mkState w (requests s ++ [searchanalytics_query siteUrl requestBody])%list).

Definition call (rq : request) : M State Payload :=
  fun s =>
    let (r, w) := googleapis rq (world s) in
    (r, mkState w (requests s ++ [rq])%list).

(** [normalizeUrl(url)] *)
Definition normalizeUrl (url : string) : string :=
  match URL_parse url with
  | Some parsedUrl =>
      if String.eqb (protocol parsedUrl) "http:"
         || String.eqb (protocol parsedUrl) "https:"
      then "sc-domain:" ++ hostname parsedUrl
      else url
  | None => url
  end.

(** [err instanceof Error && err.message.toLowerCase().includes('permission')] *)
Definition isPermissionError (err : thrown) : bool :=
  instanceof_Error err && includes (toLowerCase (message_of err)) "permission".

(** [handlePermissionError(operation, fallbackOperation)]: the two thunks
    are the computations themselves. *)
Definition handlePermissionError {T : Type}
    (operation fallbackOperation : M State T) : M State T :=
  try_catch operation
    (fun err => if isPermissionError err then fallbackOperation else throw err).

(** [listSites()] *)
Definition listSites : M State Payload := call sites_list.

(** [searchAnalytics(siteUrl, requestBody)] *)
Definition searchAnalytics (siteUrl : string)
    (requestBody : SearchAnalyticsRequest) : M State SearchAnalyticsData :=
  handlePermissionError
    (call_searchanalytics siteUrl requestBody)
    (call_searchanalytics (normalizeUrl siteUrl) requestBody).

(** [inspectUrl(siteUrl, inspectionUrl, languageCode = 'en-US')] *)
Definition inspectUrl (siteUrl inspectionUrl : string) (languageCode : option string)
    : M State Payload :=
  call (urlInspection_index_inspect siteUrl inspectionUrl
          (or_default languageCode "en-US")).

(** [submitUrlForIndexing(url, type = 'URL_UPDATED')] *)
Definition submitUrlForIndexing (url : string) (type : option string) : M State Payload :=
  call (urlNotifications_publish url (or_default type "URL_UPDATED")).

Definition listSitemaps (siteUrl : string) : M State Payload :=
  handlePermissionError
    (call (sitemaps_list siteUrl))
    (call (sitemaps_list (normalizeUrl siteUrl))).

Definition submitSitemap (siteUrl feedpath : string) : M State Payload :=
  handlePermissionError
    (call (sitemaps_submit siteUrl feedpath))
    (call (sitemaps_submit (normalizeUrl siteUrl) feedpath)).

(** ** Quick wins *)

(** The predicate of [rows.filter]. *)
Definition isQuickWin (thresholds : Thresholds) (row : ApiDataRow) : bool :=
  let impressions := number_or_zero (impressions row) in
  let ctr := (number_or_zero (ctr row) * 100)%Q in
  let position := number_or_zero (position row) in
  Number_ge impressions (minImpressions thresholds)
  && Number_le ctr (maxCtr thresholds)
  && Number_ge position (positionRangeMin thresholds)
  && Number_le position (positionRangeMax thresholds).

Definition targetCtr (position : number) : number :=
  if Number_le position 5%Q then 8%Q
  else if Number_le position 10%Q then 5%Q else 3%Q.

Definition opportunityOf (additionalClicks : number) : Opportunity :=
  if Number_ge additionalClicks 100%Q then High
  else if Number_ge additionalClicks 30%Q then Medium
  else Low.

Definition key_at (n : nat) (row : ApiDataRow) : option string :=
  match keys row with
  | Some ks => nth_error ks n
  | None => None
  end.

(** The function of [.map]. *)
Definition toQuickWin (row : ApiDataRow) : QuickWin :=
  let impressions := number_or_zero (impressions row) in
  let currentClicks := number_or_zero (clicks row) in
  let currentCtr := (number_or_zero (ctr row) * 100)%Q in
  let position := number_or_zero (position row) in
  let targetCtr := targetCtr position in
  let potentialClicks := Math_round ((impressions * targetCtr) / 100)%Q in
  let additionalClicks := Math_max 0%Q (potentialClicks - currentClicks)%Q in
  mkQuickWin
    (string_or (key_at 0 row) "N/A")
    (string_or (key_at 1 row) "N/A")
    (Number_toFixed 1 position)
    impressions
    currentClicks
    (Number_toFixed 2 currentCtr)
    potentialClicks
    additionalClicks
    (opportunityOf additionalClicks)
    ("Position " ++ toFixed 1 position ++ " â†’ Target top 3 for "
       ++ toFixed 0 targetCtr ++ "% CTR").

(** [(a, b) => b.additionalClicks - a.additionalClicks] *)
Definition byAdditionalClicks (a b : QuickWin) : number :=
  (additionalClicks b - additionalClicks a)%Q.

(** The chain [filter / map / sort / slice] applied to the fetched rows. *)
Definition quickWinsOf (thresholds : Thresholds) (rows : list ApiDataRow)
    : list QuickWin :=
  Array_slice0 (limit thresholds)
    (Array_sort byAdditionalClicks
       (map toQuickWin (filter (isQuickWin thresholds) rows))).

Definition rows_or_empty (data : SearchAnalyticsData) : list ApiDataRow :=
  match rows data with
  | Some rs => rs
  | None => []
  end.

(** [detectQuickWins(siteUrl, startDate, endDate, thresholds)] *)
Definition detectQuickWins (siteUrl startDate endDate : string)
    (thresholds : Thresholds) : M State (list QuickWin) :=
  result <- searchAnalytics siteUrl
    (mkRequest startDate endDate ["query"; "page"] 25000%Q "all") ;;
  let rows := rows_or_empty result in
  ret (quickWinsOf thresholds rows).

(** ** Period comparison *)

(** [row.keys?.join('|')] *)
Definition joined_key (row : ApiDataRow) : option string :=
  match keys row with
  | Some ks => Some (join ks "|")
  | None => None
  end.

Definition previousLookupOf (previousRows : list ApiDataRow)
    : Map (option string) ApiDataRow :=
  Map_of key_dec (map (fun row => (joined_key row, row)) previousRows).

(** [previous > 0 ? Number((((current - previous) / previous) * 100).toFixed(1)) : null] *)
Definition percentChange (current previous : number) : percentage :=
  if Number_gt previous 0%Q then
    Some match Number_div (current - previous)%Q previous with
         | Finite q => Finite (Number_toFixed 1 (q * 100)%Q)
         | NonFinite => NonFinite
         end
  else None.

(** [previousRow?.field || 0] *)
Definition field_or_zero (field : ApiDataRow -> option number)
    (previousRow : option ApiDataRow) : number :=
  match previousRow with
  | Some row => number_or_zero (field row)
  | None => 0%Q
  end.

(** The function of [currentRows.map]. *)
Definition compareRow (previousLookup : Map (option string) ApiDataRow)
    (currentRow : ApiDataRow) : Comparison :=
  let key := joined_key currentRow in
  let previousRow := Map_get key_dec (Some (string_or key "")) previousLookup in
  let currentClicks := number_or_zero (clicks currentRow) in
  let previousClicks := field_or_zero clicks previousRow in
  let currentImpressions := number_or_zero (impressions currentRow) in
  let previousImpressions := field_or_zero impressions previousRow in
  let currentPosition := number_or_zero (position currentRow) in
  let previousPosition := field_or_zero position previousRow in
  let currentCtr := (number_or_zero (ctr currentRow) * 100)%Q in
  let previousCtr := (field_or_zero ctr previousRow * 100)%Q in
  mkComparison
    (keys currentRow)
    (mkMetrics currentClicks currentImpressions
       (Number_toFixed 1 currentPosition) (Number_toFixed 2 currentCtr))
    (mkMetrics previousClicks previousImpressions
       (Number_toFixed 1 previousPosition) (Number_toFixed 2 previousCtr))
    (mkChange
       (currentClicks - previousClicks)%Q
       (percentChange currentClicks previousClicks)
       (currentImpressions - previousImpressions)%Q
       (Number_toFixed 1 (previousPosition - currentPosition)%Q)
       (Number_toFixed 2 (currentCtr - previousCtr)%Q)).

(** [(a, b) => b.change.clicks - a.change.clicks] *)
Definition byClicksChange (a b : Comparison) : number :=
  (ch_clicks (change b) - ch_clicks (change a))%Q.

(** The accumulator of [rows.reduce]. *)
Definition totalsOf (rows : list ApiDataRow) : number * number :=
  fold_left
    (fun acc row =>
       ((number_or_zero (Some (fst acc)) + number_or_zero (clicks row))%Q,
        (number_or_zero (Some (snd acc)) + number_or_zero (impressions row))%Q))
    rows (0%Q, 0%Q).

(** What [comparePeriods] computes from the two fetched row sets. *)
Definition compareRows (currentStart currentEnd previousStart previousEnd : string)
    (currentRows previousRows : list ApiDataRow) : ComparePeriodsResult :=
  let previousLookup := previousLookupOf previousRows in
  let comparison :=
    Array_sort byClicksChange (map (compareRow previousLookup) currentRows) in
  let currentTotals := totalsOf currentRows in
  let previousTotals := totalsOf previousRows in
  let currClicks := number_or_zero (Some (fst currentTotals)) in
  let prevClicks := number_or_zero (Some (fst previousTotals)) in
  let currImpressions := number_or_zero (Some (snd currentTotals)) in
  let prevImpressions := number_or_zero (Some (snd previousTotals)) in
  mkResult comparison
    (mkSummary
       (mkPeriod currentStart currentEnd currClicks currImpressions)
       (mkPeriod previousStart previousEnd prevClicks prevImpressions)
       (mkSummaryChange
          (currClicks - prevClicks)%Q
          (percentChange currClicks prevClicks)
          (currImpressions - prevImpressions)%Q)).

(** [comparePeriods(..., dimensions = ['query'], rowLimit = 100)]: the two
    queries of [Promise.all] are issued one after the other, the current
    period first; a failure of either fails the call. *)
Definition comparePeriods (siteUrl currentStart currentEnd previousStart
    previousEnd : string) (dimensions : option (list string))
    (rowLimit : option number) : M State ComparePeriodsResult :=
  let dimensions := or_default dimensions ["query"] in
  let rowLimit := or_default rowLimit 100%Q in
  current <- searchAnalytics siteUrl
    (mkRequest currentStart currentEnd dimensions rowLimit "all") ;;
  previous <- searchAnalytics siteUrl
    (mkRequest previousStart previousEnd dimensions rowLimit "all") ;;
  let currentRows := rows_or_empty current in
  let previousRows := rows_or_empty previous in
  ret (compareRows currentStart currentEnd previousStart previousEnd
         currentRows previousRows).

End SERVICE.

End SearchConsole.

(* ================================================================== *)
(** * Statements of the specification, and sample inputs *)
(* ================================================================== *)

Module AccountsSpec.
Import Accounts.

Section STATEMENTS.

Variable World : Type.
Variable Date_now : World -> number.
Variable token_endpoint : Credentials -> World -> (thrown + Credentials) * World.

(** [getAuthClient] up to the point where it inspects the token: the
    account is resolved and its client is taken from the cache or made. *)
Definition beforeTokenCheck (idOrEmail : option string)
    : M (State World) (cloc * loc) :=
  account <- resolveAccount idOrEmail ;;
  client <- cachedClient account ;;
  ret (client, account).

(** The number of refresh calls in a trace. *)
Definition refreshes (t : list event) : nat :=
  List.length (filter (fun e => match e with
                                | RefreshAccessToken _ => true
                                | NewOAuth2Client _ => false
                                end) t).

(** "The cached credentials have no access token or the freshest known
    expiry is less than now + 60000 ms." *)
Definition stale (tokens : Credentials) (a : GSCAccount) (now : number) : Prop :=
  truthy_string (access_token tokens) = false
  \/ (freshest_expiry tokens a < now + 60000)%Q.

(** The arguments of one [registerAccount] call. *)
Record Registration : Type := mkRegistration {
  r_id : string;
  r_email : string;
  r_refreshToken : string;
  r_accessToken : option string
}.

Definition register (r : Registration) : M (State World) unit :=
  registerAccount (r_id r) (r_email r) (r_refreshToken r) (r_accessToken r).

Fixpoint registerAll (rs : list Registration) : M (State World) unit :=
  match rs with
  | [] => ret tt
  | r :: rs' => register r ;;; registerAll rs'
  end.

(** The state a fresh manager reaches by a sequence of registrations. *)
Definition registered (rs : list Registration) (w : World) : State World :=
  snd (registerAll rs (initial "client-id" "client-secret" w)).

(** The record a registration creates. *)
Definition record_of (r : Registration) : GSCAccount :=
  mkAccount (r_id r) (r_email r) (r_refreshToken r) (r_accessToken r) None.

(** The registration at position [j] is the latest one under its id. *)
Definition latest_for_id (rs : list Registration) (j : nat) (r : Registration) : Prop :=
  nth_error rs j = Some r
  /\ forall j' r', (j < j')%nat -> nth_error rs j' = Some r' -> r_id r' <> r_id r.

(** "Looking the account up by its id and by its e-mail in any letter case
    return the same record": the record made by its latest registration. *)
Definition reachable_by_either_key (rs : list Registration) (w : World) : Prop :=
  forall j r, latest_for_id rs j r ->
  forall e, toLowerCase e = toLowerCase (r_email r) ->
    getAccount (r_id r) (registered rs w) = Some j
    /\ getAccount e (registered rs w) = Some j
    /\ account_at (store (registered rs w)) j = record_of r.

(** Registrations under different ids share no key: their e-mails differ
    whatever the letter case, and no id is another one's e-mail. *)
Definition no_key_collision (rs : list Registration) : Prop :=
  forall r1 r2, In r1 rs -> In r2 rs -> r_id r1 <> r_id r2 ->
    toLowerCase (r_email r1) <> toLowerCase (r_email r2)
    /\ toLowerCase (r_id r1) <> toLowerCase (r_email r2).

(** The address answered for key [k] after the registrations [rs], the
    first of which allocates address [n]: the last one that wrote [k]. *)
Fixpoint writer (k : string) (rs : list Registration) (n : loc) : option loc :=
  match rs with
  | [] => None
  | r :: rs' =>
      match writer k rs' (S n) with
      | Some l => Some l
      | None =>
          if string_dec k (toLowerCase (r_email r)) then Some n
          else if string_dec k (r_id r) then Some n
          else None
      end
  end.

(** "Without a selector, the account with the lexicographically-first id
    among the registered accounts is picked." *)
Definition picks_least_id (s : State World) : Prop :=
  forall client account s',
    getAuthClient Date_now token_endpoint None s = (inr (client, account), s') ->
    forall info, In info (listAccounts s) ->
      String.leb (id (account_at (store s') account)) (fst info) = true.

(** "After register(id, emailA, tokenA) and register(id, emailB, tokenB)
    with emailA <> emailB, getAccount(emailA) still returns the old record,
    which carries tokenA, and getAccount(id) and getAccount(emailB) return
    the new one." *)
Definition stale_email_key (s : State World) (id emailA tokenA emailB tokenB : string)
    (accessA accessB : option string) : Prop :=
  let s2 := snd ((registerAccount id emailA tokenA accessA ;;;
                  registerAccount id emailB tokenB accessB) s) in
  let old := account_next (store s) in
  let new := S old in
  getAccount emailA s2 = Some old
  /\ refreshToken (account_at (store s2) old) = tokenA
  /\ getAccount id s2 = Some new
  /\ getAccount emailB s2 = Some new
  /\ refreshToken (account_at (store s2) new) = tokenB.

End STATEMENTS.

(** ** Sample worlds: the world is the clock, in milliseconds. *)

Definition sample_now (w : Z) : number := inject_Z w.

(** An identity provider that grants a token valid for one hour. *)
Definition granting_endpoint (cr : Credentials) (w : Z)
    : (thrown + Credentials) * Z :=
  (inr (mkCredentials (refresh_token cr) (Some "ya29.fresh")
          (Some (inject_Z (w + 3600000)))), w).

(** An identity provider that rejects every refresh token. *)
Definition revoking_endpoint (cr : Credentials) (w : Z)
    : (thrown + Credentials) * Z :=
  (inl (Error "invalid_grant"), w).

Definition fresh_manager : State Z := initial "client-id" "client-secret" 1000000%Z.

Definition main_account : Registration :=
  mkRegistration "main" "Main@Gmail.com" "1//refresh-main" None.

Definition client_account : Registration :=
  mkRegistration "client1" "client@gmail.com" "1//refresh-client" (Some "ya29.old").

Definition main_again : Registration :=
  mkRegistration "main" "new@gmail.com" "1//refresh-new" None.

(** A manager with the single account "main". *)
Definition only_main : State Z := registered [main_account] 1000000%Z.

(** Two accounts, "b" registered before "a". *)
Definition b_then_a : list Registration :=
  [mkRegistration "b" "b@x.com" "1//b" None; mkRegistration "a" "a@x.com" "1//a" None].

(** Two ids registered with one e-mail. *)
Definition shared_email : list Registration :=
  [mkRegistration "a" "x@y.com" "1//a" None; mkRegistration "b" "x@y.com" "1//b" None].

(** A manager with a cached client for "main", and a second record for the
    same id in the store, not yet added. *)
Definition before_reregistration : State Z :=
  snd ((register main_account ;;;
        getAuthClient sample_now granting_endpoint (Some "main") ;;;
        new_account (record_of main_again)) fresh_manager).

End AccountsSpec.

Module SearchConsoleSpec.
Import SearchConsole.

Section STATEMENTS.

Variable World : Type.
Variable Payload : Type.
Variable searchanalytics :
  string -> SearchAnalyticsRequest -> World -> (thrown + SearchAnalyticsData) * World.
Variable googleapis : request -> World -> (thrown + Payload) * World.
Variable URL_parse : string -> option URL.

(** The fallback policy of an operation on a site URL, [attempt] being the
    single call it makes for a given URL and [request_for] that call in the
    log: the literal URL first; on a permission error, and only then, one
    more attempt with the normalized URL, whose outcome is the outcome. *)
Definition fallback_policy {T : Type} (request_for : string -> request)
    (attempt operation : string -> M (State World) T) : Prop :=
  forall siteUrl s,
    let (first, s1) := attempt siteUrl s in
    requests s1 = (requests s ++ [request_for siteUrl])%list
    /\ match first with
       | inr v => operation siteUrl s = (inr v, s1)
       | inl err =>
           if isPermissionError err then
             let (second, s2) := attempt (normalizeUrl URL_parse siteUrl) s1 in
             operation siteUrl s = (second, s2)
             /\ requests s2
                = (requests s ++ [request_for siteUrl;
                                  request_for (normalizeUrl URL_parse siteUrl)])%list
           else operation siteUrl s = (inl err, s1)
       end.

(** "impressions >= minImpressions, ctr * 100 <= maxCtr and
    positionRangeMin <= position <= positionRangeMax" *)
Definition keeps (th : Thresholds) (row : ApiDataRow) : Prop :=
  (minImpressions th <= number_or_zero (impressions row))%Q
  /\ (number_or_zero (ctr row) * 100 <= maxCtr th)%Q
  /\ (positionRangeMin th <= number_or_zero (position row))%Q
  /\ (number_or_zero (position row) <= positionRangeMax th)%Q.

(** "8 if position <= 5, else 5 if position <= 10, else 3" *)
Definition is_targetCtr (position target : number) : Prop :=
  ((position <= 5)%Q /\ target = 8%Q)
  \/ ((5 < position)%Q /\ (position <= 10)%Q /\ target = 5%Q)
  \/ ((10 < position)%Q /\ target = 3%Q).

(** [n] is [x] rounded to the nearest integer, halves upwards. *)
Definition is_rounded (x n : number) : Prop :=
  exists z : Z, n = inject_Z z /\ (x - (1 # 2) < n)%Q /\ (n <= x + (1 # 2))%Q.

(** "High if additionalClicks >= 100, Medium if >= 30, else Low" *)
Definition is_opportunity (additional : number) (o : Opportunity) : Prop :=
  ((100 <= additional)%Q /\ o = High)
  \/ ((30 <= additional)%Q /\ (additional < 100)%Q /\ o = Medium)
  \/ ((additional < 30)%Q /\ o = Low).

(** What the specification says of the quick win computed for a row. *)
Definition describes (row : ApiDataRow) (qw : QuickWin) : Prop :=
  let impressions := number_or_zero (impressions row) in
  let clicks := number_or_zero (clicks row) in
  exists target,
    is_targetCtr (number_or_zero (position row)) target
    /\ is_rounded (impressions * target / 100)%Q (potentialClicks qw)
    /\ (((potentialClicks qw - clicks <= 0)%Q /\ (additionalClicks qw == 0)%Q)
        \/ ((0 <= potentialClicks qw - clicks)%Q
            /\ (additionalClicks qw == potentialClicks qw - clicks)%Q))
    /\ is_opportunity (additionalClicks qw) (opportunity qw)
    /\ qw_impressions qw = impressions
    /\ currentClicks qw = clicks.

(** [th'] is [th] with a higher impression floor or a narrower position
    range, the other thresholds unchanged. *)
Definition tighter (th th' : Thresholds) : Prop :=
  (minImpressions th <= minImpressions th')%Q
  /\ (positionRangeMin th <= positionRangeMin th')%Q
  /\ (positionRangeMax th' <= positionRangeMax th)%Q
  /\ maxCtr th' = maxCtr th
  /\ limit th' = limit th.

(** Descending order of [additionalClicks]. *)
Definition descending (a b : QuickWin) : Prop :=
  (additionalClicks b <= additionalClicks a)%Q.

(** The quick wins whose [additionalClicks] is [v], in the order of [l]. *)
Definition with_additionalClicks (v : number) (l : list QuickWin) : list QuickWin :=
  filter (fun qw => Qeq_bool (additionalClicks qw) v) l.

(** No previous-period row has the key under which [currentRow] is looked
    up. *)
Definition unmatched (previousRows : list ApiDataRow) (currentRow : ApiDataRow) : Prop :=
  forall p, In p previousRows ->
    joined_key p <> Some (string_or (joined_key currentRow) "").

End STATEMENTS.

(** ** Sample inputs *)

(** The defaults of the [detect_quick_wins] tool. *)
Definition default_thresholds : Thresholds :=
  mkThresholds 100%Q 3%Q 4%Q 20%Q 50%Q.

(** [{impressions: 1000, clicks: 20, ctr: 0.02, position: 6}] *)
Definition example_row : ApiDataRow :=
  mkRow (Some ["seo tools"; "https://example.com/tools"])
        (Some 20%Q) (Some 1000%Q) (Some (2 # 100)%Q) (Some 6%Q).

Definition sample_rows : list ApiDataRow :=
  [ mkRow (Some ["rank tracker"; "https://example.com/rank"])
          (Some 4%Q) (Some 400%Q) (Some (1 # 100)%Q) (Some (123 # 10)%Q);
    example_row;
    mkRow (Some ["brand"; "https://example.com/"])
          (Some 900%Q) (Some 1000%Q) (Some (9 # 10)%Q) (Some 1%Q);
    mkRow (Some ["keyword research"; "https://example.com/kw"])
          (Some 50%Q) (Some 1000%Q) (Some (1 # 100)%Q) (Some (45 # 10)%Q);
    mkRow (Some ["site audit"])
          None (Some 5000%Q) None (Some 18%Q) ].

Definition previous_rows : list ApiDataRow :=
  [ mkRow (Some ["seo tools"; "https://example.com/tools"])
          (Some 10%Q) (Some 800%Q) (Some (125 # 10000)%Q) (Some 8%Q);
    mkRow (Some ["brand"; "https://example.com/"])
          (Some 0%Q) (Some 10%Q) (Some 0%Q) (Some 2%Q) ].

Fixpoint until_slash (s : string) : string :=
  match s with
  | EmptyString => EmptyString
  | String c s' => if Ascii.eqb c "/" then EmptyString else String c (until_slash s')
  end.

(** A parser that understands [http://host/...], [https://host/...] and
    [sc-domain:...] (a URL without a host) and rejects everything else. *)
Definition simple_URL_parse (url : string) : option URL :=
  if String.prefix "https://" url then
    Some (mkURL "https:" (until_slash (substring 8 (String.length url - 8) url)))
  else if String.prefix "http://" url then
    Some (mkURL "http:" (until_slash (substring 7 (String.length url - 7) url)))
  else if String.prefix "sc-domain:" url then Some (mkURL "sc-domain:" "")
  else None.

(** A property that is verified as a domain property only: the world is
    the number of calls answered so far. *)
Definition domain_only_searchanalytics (siteUrl : string)
    (requestBody : SearchAnalyticsRequest) (w : nat)
    : (thrown + SearchAnalyticsData) * nat :=
  if String.prefix "sc-domain:" siteUrl then
    (inr (mkData (Some (if String.eqb (startDate requestBody) "2024-01-01"
                        then previous_rows else sample_rows))), S w)
  else
    (inl (Error "User does not have sufficient Permission for site"), S w).

Definition domain_only_googleapis (rq : request) (w : nat) : (thrown + string) * nat :=
  match rq with
  | sitemaps_list siteUrl | sitemaps_submit siteUrl _ =>
      if String.prefix "sc-domain:" siteUrl then (inr "ok", S w)
      else (inl (Error "User does not have sufficient Permission for site"), S w)
  | _ => (inr "ok", S w)
  end.

Definition idle : State nat := mkState 0%nat [].

(** Thresholds tighter than the defaults. *)
Definition strict_thresholds : Thresholds :=
  mkThresholds 1000%Q 3%Q 5%Q 15%Q 50%Q.

(** The request bodies of the sample runs. *)
Definition february : SearchAnalyticsRequest :=
  mkRequest "2024-02-01" "2024-02-29" ["query"; "page"] 25000%Q "all".

Definition january : SearchAnalyticsRequest :=
  mkRequest "2024-01-01" "2024-01-31" ["query"; "page"] 100%Q "all".

Definition february100 : SearchAnalyticsRequest :=
  mkRequest "2024-02-01" "2024-02-29" ["query"; "page"] 100%Q "all".

End SearchConsoleSpec.


(* ================================================================== *)
(** * Loading the accounts from the environment *)
(* ================================================================== *)

Module Environment.
Import Accounts.

(** [process.env]: the variables that [fromEnvironment] reads. *)
Record Env : Type := mkEnv {
  GOOGLE_CLIENT_ID : option string;
  GOOGLE_CLIENT_SECRET : option string;
  GSC_ACCOUNTS_JSON : option string;
  GSC_ACCOUNTS_FILE : option string;
  GSC_REFRESH_TOKEN : option string;
  GSC_EMAIL : option string;
  GSC_ACCESS_TOKEN : option string
}.

(** What [JSON.parse] answers for a text that describes an
    [AccountsConfig]; the only field that is read, [accounts], may be
    missing. *)
Record AccountsConfig : Type := mkConfig {
  config_accounts : option (list GSCAccount)
}.

(** The calls of [console.error]: the label and the value caught. *)
Definition console : Type := list (string * thrown).

Section ENVIRONMENT.

Variable World : Type.

(** [JSON.parse] on the texts met (it throws on a text that is no JSON;
    a text that is JSON is taken to have the shape of [AccountsConfig]),
    [fs.existsSync] and [fs.readFileSync]. *)
Variable JSON_parse : string -> thrown + AccountsConfig.
Variable existsSync : string -> bool.
Variable readFileSync : string -> thrown + string.

(** The manager under construction and what was written to the console. *)
Definition Startup : Type := (State World * console)%type.

Definition on_manager {A : Type} (m : M (State World) A) : M Startup A :=
  fun s => let (r, s') := m (fst s) in (r, (s', snd s)).

Definition console_error (label : string) (e : thrown) : M Startup unit :=
  modify (fun s => (fst s, (snd s ++ [(label, e)])%list)).

Definition outcome {A : Type} (r : thrown + A) : M Startup A :=
  fun s => (r, s).

(** [for (const account of accounts) manager.addAccount(account)]: every
    parsed account is an object of its own. *)
Fixpoint addAccounts (accounts : list GSCAccount) : M (State World) unit :=
  match accounts with
  | [] => ret tt
  | a :: rest =>
      account <- new_account a ;;
      addAccount account ;;;
      addAccounts rest
  end.

(** [config.accounts || []] *)
Definition accounts_or_empty (config : AccountsConfig) : list GSCAccount :=
  or_default (config_accounts config) [].

Definition RequiredCredentials : thrown :=
  Error "GOOGLE_CLIENT_ID and GOOGLE_CLIENT_SECRET are required".

(** Lines 63-74: the accounts of [GSC_ACCOUNTS_JSON]. *)
Definition loadJson (env : Env) : M Startup unit :=
  let accountsJson := GSC_ACCOUNTS_JSON env in
  if truthy_string accountsJson then
    try_catch
      (config <- outcome (JSON_parse (string_or accountsJson "")) ;;
       on_manager (addAccounts (accounts_or_empty config)))
      (fun e => console_error "Failed to parse GSC_ACCOUNTS_JSON:" e)
  else ret tt.

(** Lines 76-87: the accounts of the file named by [GSC_ACCOUNTS_FILE]. *)
Definition loadFile (env : Env) : M Startup unit :=
  let accountsFile := GSC_ACCOUNTS_FILE env in
  if truthy_string accountsFile && existsSync (string_or accountsFile "") then
    try_catch
      (text <- outcome (readFileSync (string_or accountsFile "")) ;;
       config <- outcome (JSON_parse text) ;;
       on_manager (addAccounts (accounts_or_empty config)))
      (fun e => console_error "Failed to load GSC_ACCOUNTS_FILE:" e)
  else ret tt.

(** Lines 89-99: the single account of [GSC_REFRESH_TOKEN]. *)
Definition loadSingle (env : Env) : M Startup unit :=
  let singleRefreshToken := GSC_REFRESH_TOKEN env in
  let singleEmail := string_or (GSC_EMAIL env) "default" in
  if truthy_string singleRefreshToken then
    on_manager
      (account <- new_account
         (mkAccount "default" singleEmail (string_or singleRefreshToken "")
            (GSC_ACCESS_TOKEN env) None) ;;
       addAccount account)
  else ret tt.

(** [AccountManager.fromEnvironment()]: the manager it returns, in the
    state it is in, or the error it throws. *)
Definition fromEnvironment (env : Env) (w : World) : thrown + Startup :=
  let clientId := GOOGLE_CLIENT_ID env in
  let clientSecret := GOOGLE_CLIENT_SECRET env in
  if negb (truthy_string clientId) || negb (truthy_string clientSecret) then
    inl RequiredCredentials
  else
    let manager := initial (string_or clientId "") (string_or clientSecret "") w in
    match (loadJson env ;;; loadFile env ;;; loadSingle env) (manager, [] : console) with
    | (inr _, s) => inr s
    | (inl e, _) => inl e
    end.

End ENVIRONMENT.

End Environment.

(* ================================================================== *)
(** * The tool handlers that use the two classes *)
(* ================================================================== *)

Module Tools.
Import Accounts SearchConsole.

(** The [summary] of the [detect_quick_wins] tool. *)
Record QuickWinsSummary : Type := mkQuickWinsSummary {
  totalQuickWins : nat;
  highOpportunities : nat;
  potentialAdditionalClicks : number
}.

(** [qw.opportunity === 'High'] *)
Definition isHigh (qw : QuickWin) : bool :=
  match opportunity qw with
  | High => true
  | _ => false
  end.

Definition summaryOf (quickWins : list QuickWin) : QuickWinsSummary :=
  let totalAdditionalClicks :=
    fold_left (fun sum qw => (sum + additionalClicks qw)%Q) quickWins 0%Q in
  let highOpportunities := List.length (filter isHigh quickWins) in
  mkQuickWinsSummary (List.length quickWins) highOpportunities totalAdditionalClicks.

Section HANDLERS.

Variable World : Type.

(** The [register_account] tool, once its arguments are parsed: the
    account is registered and the number of accounts is reported. *)
Definition register_account (id email refreshToken : string)
    (accessToken : option string) : M (Accounts.State World) nat :=
  registerAccount id email refreshToken accessToken ;;;
  s <- get ;;
  ret (count s).

End HANDLERS.

End Tools.

(* ================================================================== *)
(** * Further notions used in the statements *)
(* ================================================================== *)

Module AccountsNotions.
Import Accounts AccountsSpec.

(** The number of OAuth2 clients constructed in a trace. *)
Definition constructions (t : list event) : nat :=
  List.length (filter (fun e => match e with
                                | NewOAuth2Client _ => true
                                | RefreshAccessToken _ => false
                                end) t).

(** The ids that a sequence of registrations mentions, each once. *)
Definition distinct_ids (rs : list Registration) : list string :=
  nodup string_dec (map r_id rs).

(** The ids of the records that the account map holds, each once. *)
Definition held_ids {World : Type} (s : State World) : list string :=
  nodup string_dec
    (map (fun entry => id (account_at (store s) (snd entry)))
       (accounts (manager s))).

(** A registration writes the key [k]: its id or its lower-cased e-mail. *)
Definition writes (r : Registration) (k : string) : Prop :=
  k = r_id r \/ k = toLowerCase (r_email r).

(** The part of an account record that [getAuthClient] never touches. *)
Definition identity (a : GSCAccount) : string * string * string :=
  (id a, email a, refreshToken a).

(** ** Sample inputs *)

(** "main", "client1" and "main" again under another e-mail. *)
Definition three_registrations : list Registration :=
  [main_account; client_account; main_again].

(** The manager with the single account "main", after its first use with
    an identity provider that grants tokens. *)
Definition after_first_use : State Z :=
  snd (getAuthClient sample_now granting_endpoint (Some "main") only_main).

(** What the granting provider answers for "main" at the sample time. *)
Definition granted_to_main : Credentials :=
  mkCredentials (Some "1//refresh-main") (Some "ya29.fresh")
    (Some (inject_Z 4600000)).

(** Two accounts that are each their own e-mail, and a third registration
    that takes the keys of both. *)
Definition taking_over : list Registration :=
  [mkRegistration "a" "a" "1//a" None; mkRegistration "b" "b" "1//b" None;
   mkRegistration "a" "b" "1//c" None].

End AccountsNotions.

Module ServiceNotions.
Import SearchConsole.

(** Descending order of the change in clicks. *)
Definition by_clicks_gain (a b : Comparison) : Prop :=
  (ch_clicks (change b) <= ch_clicks (change a))%Q.

(** The comparisons whose change in clicks is [v], in the order of [l]. *)
Definition with_clicks_change (v : number) (l : list Comparison) : list Comparison :=
  filter (fun c => Qeq_bool (ch_clicks (change c)) v) l.

(** The sum of a metric over rows, a missing value counting for zero. *)
Definition total (field : ApiDataRow -> option number) (rows : list ApiDataRow)
    : number :=
  fold_right (fun row acc => (number_or_zero (field row) + acc)%Q) 0%Q rows.

(** The sum of a number read off each comparison. *)
Definition sum_over (f : Comparison -> number) (l : list Comparison) : number :=
  fold_right (fun c acc => (f c + acc)%Q) 0%Q l.

(** [p] is the last of [previousRows] whose keys join to [key]. *)
Definition last_with_key (key : string) (previousRows : list ApiDataRow)
    (p : ApiDataRow) : Prop :=
  exists before after,
    previousRows = (before ++ p :: after)%list
    /\ joined_key p = Some key
    /\ forall q, In q after -> joined_key q <> Some key.

(** The key under which the previous-period row of [currentRow] is looked
    up: [key || ''], the joined keys or the empty text. *)
Definition lookup_key (currentRow : ApiDataRow) : string :=
  string_or (joined_key currentRow) "".

(** ** Sample inputs *)

(** The previous-period row of the example row. *)
Definition example_before : ApiDataRow :=
  mkRow (Some ["seo tools"; "https://example.com/tools"])
        (Some 10%Q) (Some 800%Q) (Some (125 # 10000)%Q) (Some 8%Q).

End ServiceNotions.

Module EnvironmentNotions.
Import Accounts AccountsSpec Environment.

(** The registration that adds a parsed account. *)
Definition registration_of (a : GSCAccount) : Registration :=
  mkRegistration (id a) (email a) (refreshToken a) (accessToken a).

Section CONFIGURED.

Variable JSON_parse : string -> thrown + AccountsConfig.
Variable existsSync : string -> bool.
Variable readFileSync : string -> thrown + string.

(** The accounts that each source of the environment gives: none when the
    variable is unset or empty, the file missing, or the text unreadable
    or no JSON. *)
Definition fromJson (env : Env) : list GSCAccount :=
  if truthy_string (GSC_ACCOUNTS_JSON env) then
    match JSON_parse (string_or (GSC_ACCOUNTS_JSON env) "") with
    | inr config => accounts_or_empty config
    | inl _ => []
    end
  else [].

Definition fromFile (env : Env) : list GSCAccount :=
  if truthy_string (GSC_ACCOUNTS_FILE env)
     && existsSync (string_or (GSC_ACCOUNTS_FILE env) "") then
    match readFileSync (string_or (GSC_ACCOUNTS_FILE env) "") with
    | inr text =>
        match JSON_parse text with
        | inr config => accounts_or_empty config
        | inl _ => []
        end
    | inl _ => []
    end
  else [].

Definition single (env : Env) : list GSCAccount :=
  if truthy_string (GSC_REFRESH_TOKEN env) then
    [mkAccount "default" (string_or (GSC_EMAIL env) "default")
       (string_or (GSC_REFRESH_TOKEN env) "") (GSC_ACCESS_TOKEN env) None]
  else [].

(** All of them, in the order in which they are added. *)
Definition configured (env : Env) : list GSCAccount :=
  (fromJson env ++ fromFile env ++ single env)%list.

End CONFIGURED.

(** ** A sample environment: a variable that holds no JSON, a file with
    two accounts, one of them called "default", and a single account. *)

Definition sample_file : string := "/etc/gsc/accounts.json".

Definition sample_text : string := "accounts: main, default".

Definition sample_config : AccountsConfig :=
  mkConfig (Some [mkAccount "main" "Main@Gmail.com" "1//refresh-main" None None;
                  mkAccount "default" "old@gmail.com" "1//old" None None]).

Definition sample_JSON_parse (text : string) : thrown + AccountsConfig :=
  if String.eqb text sample_text then inr sample_config
  else inl (Error "Unexpected token").

Definition sample_existsSync (path : string) : bool := String.eqb path sample_file.

Definition sample_readFileSync (path : string) : thrown + string :=
  if String.eqb path sample_file then inr sample_text
  else inl (Error "ENOENT: no such file or directory").

Definition sample_env : Env :=
  mkEnv (Some "client-id") (Some "client-secret") (Some "not json")
        (Some sample_file) (Some "1//single") None None.

End EnvironmentNotions.
(* ================================================================== *)
(** * Facts about the JavaScript built-ins *)
(* ================================================================== *)

Unset Implicit Arguments.

Module JSFacts.

Lemma Number_lt_iff a b : Number_lt a b = true <-> (a < b)%Q.
Proof.
  unfold Number_lt. rewrite negb_true_iff.
  split; intro H.
  - destruct (Qlt_le_dec a b) as [L|L]; [assumption|].
    apply Qle_bool_iff in L. congruence.
  - destruct (Qle_bool b a) eqn:E; [|reflexivity].
    apply Qle_bool_iff in E. lra.
Qed.

Lemma Number_le_iff a b : Number_le a b = true <-> (a <= b)%Q.
Proof. apply Qle_bool_iff. Qed.

Lemma Number_lt_false_iff a b : Number_lt a b = false <-> (b <= a)%Q.
Proof.
  unfold Number_lt. rewrite negb_false_iff. apply Qle_bool_iff.
Qed.

Lemma Number_le_false_iff a b : Number_le a b = false <-> (b < a)%Q.
Proof.
  rewrite <- Number_lt_iff. unfold Number_lt, Number_le.
  destruct (Qle_bool a b); simpl; intuition congruence.
Qed.

(** Below 10^21, [Number(x.toFixed(digits))] is [x] rounded to [digits]
    decimals. *)
Lemma pow10_pos digits : (0 < inject_Z (10 ^ Z.of_nat digits))%Q.
Proof.
  change 0%Q with (inject_Z 0). rewrite <- Zlt_Qlt.
  apply Z.pow_pos_nonneg; lia.
Qed.

Lemma half_unit_bound d P :
  (0 < P)%Q -> (- (1 # 2) <= d * P)%Q -> (d * P <= (1 # 2))%Q ->
  (Qabs d * (2 * P) <= 1)%Q.
Proof.
  intros HP Hd1 Hd2.
  assert (E : (Qabs d * (2 * P) == Qabs (d * (2 * P)))%Q).
  { rewrite Qabs_Qmult, (Qabs_pos (2 * P)%Q) by lra. reflexivity. }
  rewrite E. apply Qabs_Qle_condition. split; nra.
Qed.

Lemma Number_toFixed_rounded digits x :
  (Qabs x < toFixed_threshold)%Q -> rounded_to digits x (Number_toFixed digits x).
Proof.
  intro Hx. unfold Number_toFixed, rounded_to.
  assert (Number_le toFixed_threshold (Qabs x) = false) as ->
    by now apply Number_le_false_iff.
  assert (H2P : (inject_Z (2 * 10 ^ Z.of_nat digits)
                 == 2 * inject_Z (10 ^ Z.of_nat digits))%Q).
  { rewrite inject_Z_mult. reflexivity. }
  rewrite H2P. unfold toFixed_digits.
  pose proof (pow10_pos digits) as HP.
  generalize dependent (inject_Z (10 ^ Z.of_nat digits)). intros P _ HP.
  set (n := Qfloor (Qabs x * P + (1 # 2))%Q).
  assert (Hr : (inject_Z n / P * P == inject_Z n)%Q).
  { rewrite Qmult_comm. apply Qmult_div_r. lra. }
  assert (Hlo : (Qabs x * P - (1 # 2) < inject_Z n)%Q
                /\ (inject_Z n <= Qabs x * P + (1 # 2))%Q).
  { unfold n.
    pose proof (Qfloor_le (Qabs x * P + (1 # 2))%Q).
    pose proof (Qlt_floor (Qabs x * P + (1 # 2))%Q) as Hlt.
    rewrite inject_Z_plus in Hlt. change (inject_Z 1) with 1%Q in Hlt.
    split; lra. }
  destruct Hlo as [Hlo Hhi].
  generalize dependent (inject_Z n / P)%Q. intros r Hr.
  destruct (Number_lt x 0%Q) eqn:Es.
  - apply Number_lt_iff in Es.
    assert (Ha : (Qabs x == - x)%Q) by (apply Qabs_neg; lra).
    rewrite Ha in Hlo, Hhi.
    split.
    + exists (- n)%Z. rewrite inject_Z_opp. nra.
    + apply half_unit_bound; nra.
  - apply Number_lt_false_iff in Es.
    assert (Ha : (Qabs x == x)%Q) by (apply Qabs_pos; lra).
    rewrite Ha in Hlo, Hhi.
    split.
    + exists n. exact Hr.
    + apply half_unit_bound; nra.
Qed.

Lemma lower_ascii_idem c : lower_ascii (lower_ascii c) = lower_ascii c.
Proof.
  destruct c as [[] [] [] [] [] [] [] []]; reflexivity.
Qed.

Lemma toLowerCase_idem s : toLowerCase (toLowerCase s) = toLowerCase s.
Proof.
  induction s as [|c s IH]; simpl; [reflexivity|].
  now rewrite lower_ascii_idem, IH.
Qed.

Section MapFacts.
Variables K V : Type.
Variable K_dec : forall a b : K, {a = b} + {a <> b}.
Implicit Types (m : Map K V) (k : K) (v : V).

Lemma Map_get_set k k' v m :
  Map_get K_dec k (Map_set K_dec k' v m)
  = if K_dec k k' then Some v else Map_get K_dec k m.
Proof.
  induction m as [|[k0 v0] m IH]; simpl.
  - destruct (K_dec k k'); reflexivity.
  - destruct (K_dec k' k0) as [->|Hne]; simpl.
    + destruct (K_dec k k0); reflexivity.
    + destruct (K_dec k k0) as [->|Hne'].
      * destruct (K_dec k0 k'); congruence.
      * apply IH.
Qed.

Lemma Map_get_set_same k v m : Map_get K_dec k (Map_set K_dec k v m) = Some v.
Proof. rewrite Map_get_set. destruct (K_dec k k); congruence. Qed.

Lemma Map_get_set_other k k' v m :
  k <> k' -> Map_get K_dec k (Map_set K_dec k' v m) = Map_get K_dec k m.
Proof. intro H. rewrite Map_get_set. destruct (K_dec k k'); congruence. Qed.

Lemma Map_get_delete k k' m :
  Map_get K_dec k (Map_delete K_dec k' m)
  = if K_dec k k' then None else Map_get K_dec k m.
Proof.
  induction m as [|[k0 v0] m IH]; simpl.
  - destruct (K_dec k k'); reflexivity.
  - destruct (K_dec k' k0) as [->|Hne]; simpl.
    + rewrite IH. destruct (K_dec k k0); reflexivity.
    + destruct (K_dec k k0) as [->|Hne'].
      * destruct (K_dec k0 k'); congruence.
      * apply IH.
Qed.

Lemma Map_get_delete_same k m : Map_get K_dec k (Map_delete K_dec k m) = None.
Proof. rewrite Map_get_delete. destruct (K_dec k k); congruence. Qed.

(** The first key of a non-empty map never changes place. *)
Lemma Map_set_head k v k0 v0 m :
  exists v1 m1, Map_set K_dec k v ((k0, v0) :: m) = (k0, v1) :: m1
                /\ (k <> k0 -> v1 = v0).
Proof.
  simpl. destruct (K_dec k k0) as [->|Hne].
  - exists v, m. split; [reflexivity|congruence].
  - exists v0, (Map_set K_dec k v m). split; [reflexivity|reflexivity].
Qed.

Lemma Map_get_In k v m : Map_get K_dec k m = Some v -> In (k, v) m.
Proof.
  induction m as [|[k0 v0] m IH]; simpl; [discriminate|].
  destruct (K_dec k k0) as [->|Hne]; intro H.
  - left. congruence.
  - right. auto.
Qed.

Lemma Map_get_None k m : Map_get K_dec k m = None <-> ~ In k (map fst m).
Proof.
  induction m as [|[k0 v0] m IH]; simpl.
  - tauto.
  - destruct (K_dec k k0) as [->|Hne].
    + split; [discriminate|tauto].
    + rewrite IH. split; intros H; [intros [E|I]; [congruence|tauto]|tauto].
Qed.

Lemma Map_set_keys k v m k1 :
  In k1 (map fst (Map_set K_dec k v m)) <-> k1 = k \/ In k1 (map fst m).
Proof.
  induction m as [|[k0 v0] m IH]; simpl.
  - intuition congruence.
  - destruct (K_dec k k0) as [->|Hne]; simpl.
    + intuition congruence.
    + rewrite IH. intuition congruence.
Qed.

Lemma Map_set_values k v m k1 v1 :
  In (k1, v1) (Map_set K_dec k v m) -> (k1 = k /\ v1 = v) \/ In (k1, v1) m.
Proof.
  induction m as [|[k0 v0] m IH]; simpl.
  - intros [E|[]]. left. split; congruence.
  - destruct (K_dec k k0) as [->|Hne]; simpl.
    + intros [E|I]; [left; split; congruence|auto].
    + intros [E|I]; [auto|]. apply IH in I. tauto.
Qed.

Lemma Map_of_fold (es : list (K * V)) m k :
  Map_get K_dec k (fold_left (fun m e => Map_set K_dec (fst e) (snd e) m) es m)
  = match Map_get K_dec k (Map_of K_dec es) with
    | Some v => Some v
    | None => Map_get K_dec k m
    end.
Proof.
  unfold Map_of. revert m. induction es as [|[k0 v0] es IH] using rev_ind; intro m.
  - reflexivity.
  - rewrite !fold_left_app. simpl. rewrite !Map_get_set.
    destruct (K_dec k k0); [reflexivity|apply IH].
Qed.

(** [new Map(entries)] answers a key with the last entry that has it. *)
Lemma Map_of_snoc (es : list (K * V)) k0 v0 k :
  Map_get K_dec k (Map_of K_dec (es ++ [(k0, v0)]))
  = if K_dec k k0 then Some v0 else Map_get K_dec k (Map_of K_dec es).
Proof.
  unfold Map_of. rewrite fold_left_app. simpl. apply Map_get_set.
Qed.

Lemma Map_of_None (es : list (K * V)) k :
  Map_get K_dec k (Map_of K_dec es) = None <-> ~ In k (map fst es).
Proof.
  induction es as [|[k0 v0] es IH] using rev_ind.
  - simpl. tauto.
  - rewrite Map_of_snoc, map_app, in_app_iff. simpl.
    destruct (K_dec k k0) as [->|Hne].
    + split; [discriminate|tauto].
    + rewrite IH. intuition congruence.
Qed.

Lemma Map_of_Some (es : list (K * V)) k v :
  Map_get K_dec k (Map_of K_dec es) = Some v -> In (k, v) es.
Proof.
  induction es as [|[k0 v0] es IH] using rev_ind.
  - discriminate.
  - rewrite Map_of_snoc, in_app_iff. simpl.
    destruct (K_dec k k0) as [->|Hne]; intro H.
    + right. left. congruence.
    + auto.
Qed.
End MapFacts.

Section SortFacts.
Variable A : Type.
Variable compareFn : A -> A -> number.

Lemma sort_insert_perm x l : Permutation (sort_insert compareFn x l) (x :: l).
Proof.
  induction l as [|y l IH]; simpl; [reflexivity|].
  destruct (Number_gt (compareFn x y) 0%Q).
  - rewrite IH. apply perm_swap.
  - reflexivity.
Qed.

Lemma Array_sort_perm l : Permutation (Array_sort compareFn l) l.
Proof.
  induction l as [|x l IH]; simpl; [constructor|].
  rewrite sort_insert_perm. now constructor.
Qed.

Lemma Array_sort_length l : List.length (Array_sort compareFn l) = List.length l.
Proof. apply Permutation_length, Array_sort_perm. Qed.

Lemma Array_sort_In x l : In x (Array_sort compareFn l) <-> In x l.
Proof.
  split; apply Permutation_in; [|symmetry]; apply Array_sort_perm.
Qed.

(** Stability: a family of elements none of which has to go before
    another keeps its order. *)
Section Stable.
Variable p : A -> bool.
Hypothesis p_ties : forall x y,
  p x = true -> p y = true -> Number_gt (compareFn x y) 0%Q = false.

Lemma sort_insert_filter x l :
  filter p (sort_insert compareFn x l) = filter p (x :: l).
Proof.
  induction l as [|y l IH]; [reflexivity|].
  simpl sort_insert.
  destruct (Number_gt (compareFn x y) 0%Q) eqn:E; [|reflexivity].
  change (filter p (y :: sort_insert compareFn x l))
    with (if p y then y :: filter p (sort_insert compareFn x l)
          else filter p (sort_insert compareFn x l)).
  rewrite IH. simpl.
  destruct (p x) eqn:Px, (p y) eqn:Py; try reflexivity.
  rewrite (p_ties x y Px Py) in E. discriminate.
Qed.

Lemma Array_sort_filter l :
  filter p (Array_sort compareFn l) = filter p l.
Proof.
  induction l as [|x l IH]; [reflexivity|].
  simpl Array_sort. rewrite sort_insert_filter. simpl. now rewrite IH.
Qed.
End Stable.

(** With a comparison by difference of keys the result is in descending
    order of the key. *)
Section Keyed.
Variable key : A -> number.
Hypothesis compareFn_key : forall a b, compareFn a b = (key b - key a)%Q.

Let desc (a b : A) : Prop := (key b <= key a)%Q.

Lemma sort_insert_sorted x l :
  StronglySorted desc l -> StronglySorted desc (sort_insert compareFn x l).
Proof.
  induction 1 as [|y l Hl IH Hy]; simpl.
  - repeat constructor.
  - destruct (Number_gt (compareFn x y) 0%Q) eqn:E.
    + apply Number_lt_iff in E. rewrite compareFn_key in E.
      constructor; [assumption|].
      apply Forall_forall. intros z Hz.
      apply (Permutation_in _ (sort_insert_perm x l)) in Hz.
      destruct Hz as [<-|Hz].
      * unfold desc. lra.
      * rewrite Forall_forall in Hy. auto.
    + apply Number_lt_false_iff in E. rewrite compareFn_key in E.
      constructor; [constructor; assumption|].
      constructor; [unfold desc; lra|].
      rewrite Forall_forall in Hy |- *. intros z Hz.
      specialize (Hy z Hz). unfold desc in *. lra.
Qed.

Lemma Array_sort_sorted l : StronglySorted desc (Array_sort compareFn l).
Proof.
  induction l as [|x l IH]; simpl; [constructor|].
  now apply sort_insert_sorted.
Qed.

Lemma Array_sort_stable v l :
  filter (fun a => Qeq_bool (key a) v) (Array_sort compareFn l)
  = filter (fun a => Qeq_bool (key a) v) l.
Proof.
  apply Array_sort_filter. intros x y Hx Hy.
  apply Qeq_bool_iff in Hx, Hy.
  apply Number_lt_false_iff. rewrite compareFn_key. lra.
Qed.
End Keyed.

(** [slice(0, end)] keeps a prefix, longer when the array is longer. *)
Lemma slice_length_le end_ len : (slice_length end_ len <= len)%nat.
Proof.
  unfold slice_length. destruct (ToIntegerOrInfinity end_ <? 0)%Z eqn:E; lia.
Qed.

Lemma slice_length_mono end_ n m :
  (n <= m)%nat -> (slice_length end_ n <= slice_length end_ m)%nat.
Proof.
  unfold slice_length. intro H.
  destruct (ToIntegerOrInfinity end_ <? 0)%Z eqn:E; lia.
Qed.

Lemma Array_slice0_length end_ (l : list A) :
  List.length (Array_slice0 end_ l) = slice_length end_ (List.length l).
Proof.
  unfold Array_slice0. rewrite length_firstn.
  pose proof (slice_length_le end_ (List.length l)). lia.
Qed.

Lemma Array_slice0_In end_ (l : list A) x : In x (Array_slice0 end_ l) -> In x l.
Proof.
  unfold Array_slice0. intro H.
  rewrite <- (firstn_skipn (slice_length end_ (List.length l)) l).
  apply in_or_app. now left.
Qed.

Lemma slice_length_nonneg end_ len :
  (0 <= end_)%Q ->
  slice_length end_ len = Nat.min (Z.to_nat (Qfloor end_)) len.
Proof.
  intro H. unfold slice_length, ToIntegerOrInfinity.
  destruct (Number_lt end_ 0%Q) eqn:E.
  - apply Number_lt_iff in E. lra.
  - assert (0 <= Qfloor end_)%Z.
    { change 0%Z with (Qfloor 0%Q). now apply Qfloor_resp_le. }
    destruct (Qfloor end_ <? 0)%Z eqn:E'; lia.
Qed.
End SortFacts.

(** ** Sample evaluations *)

Example toFixed_samples :
  toFixed 1 (123456 # 1000)%Q = "123.5"
  /\ toFixed 2 (5 # 1000)%Q = "0.01"
  /\ toFixed 1 (- (4 # 100))%Q = "-0.0"
  /\ toFixed 0 8%Q = "8"
  /\ Number_toFixed 1 (- (25 # 100))%Q = (- (3 # 10))%Q.
Proof. repeat split; vm_compute; reflexivity. Qed.

Example Math_round_samples :
  Math_round (25 # 10)%Q = 3%Q /\ Math_round (- (25 # 10))%Q = (-2)%Q
  /\ Math_round (249 # 100)%Q = 2%Q.
Proof. repeat split; vm_compute; reflexivity. Qed.

Example Array_sort_sample :
  Array_sort (fun a b : number * string => (fst b - fst a)%Q)
    [(1%Q, "a"); (3%Q, "b"); (1%Q, "c"); (3%Q, "d"); (2%Q, "e")]
  = [(3%Q, "b"); (3%Q, "d"); (2%Q, "e"); (1%Q, "a"); (1%Q, "c")].
Proof. vm_compute. reflexivity. Qed.

Example Array_slice0_samples :
  Array_slice0 2%Q ["a"; "b"; "c"] = ["a"; "b"]
  /\ Array_slice0 (5 # 2)%Q ["a"; "b"; "c"] = ["a"; "b"]
  /\ Array_slice0 10%Q ["a"; "b"; "c"] = ["a"; "b"; "c"]
  /\ Array_slice0 (-1)%Q ["a"; "b"; "c"] = ["a"; "b"].
Proof. repeat split; vm_compute; reflexivity. Qed.

Example includes_samples :
  includes (toLowerCase "User lacks PERMISSION for site") "permission" = true
  /\ includes (toLowerCase "Quota exceeded") "permission" = false.
Proof. split; vm_compute; reflexivity. Qed.

End JSFacts.

(* ================================================================== *)
(** * Properties of the account manager *)
(* ================================================================== *)

Module AccountsProofs.
Import JSFacts Accounts AccountsSpec.

Section ManagerFacts.

Variable World : Type.
Variable Date_now : World -> number.
Variable token_endpoint : Credentials -> World -> (thrown + Credentials) * World.

Local Notation "'State'" := (Accounts.State World).
Local Notation "'getAuthClient'" := (Accounts.getAuthClient Date_now token_endpoint).
Local Notation "'ensureValidToken'" := (Accounts.ensureValidToken Date_now token_endpoint).

Ltac run :=
  unfold getAuthClient, Accounts.getAuthClient, beforeTokenCheck, ensureValidToken,
    Accounts.ensureValidToken,
    refreshAccessToken, ask_token_endpoint, on_tokens, setCredentials, on_,
    cachedClient, registerAccount, addAccount, new_account, new_client,
    read_account, write_account, read_client, write_client, log,
    set_manager, set_store, bind, ret, throw, get, modify, try_catch in *;
  simpl in *.

Lemma stale_iff tokens a now :
  needs_refresh tokens a now = true <-> stale tokens a now.
Proof.
  unfold needs_refresh, stale.
  rewrite orb_true_iff, negb_true_iff, Number_lt_iff. reflexivity.
Qed.

(** [getAuthClient] is its first two stages followed by the token check. *)
Lemma getAuthClient_stages idOrEmail (s : State) :
  getAuthClient idOrEmail s
  = match beforeTokenCheck idOrEmail s with
    | (inr (client, account), s1) =>
        match ensureValidToken client account s1 with
        | (inr _, s2) => (inr (client, account), s2)
        | (inl e, s2) => (inl e, s2)
        end
    | (inl e, s1) => (inl e, s1)
    end.
Proof.
  unfold Accounts.getAuthClient, beforeTokenCheck, bind, ret.
  destruct (resolveAccount idOrEmail s) as [[e|account] s0]; [reflexivity|].
  destruct (cachedClient account s0) as [[e|client] s1]; reflexivity.
Qed.

Lemma ensureValidToken_fresh client account (s : State) :
  needs_refresh (credentials (client_at (store s) client))
    (account_at (store s) account) (Date_now (world s)) = false ->
  ensureValidToken client account s = (inr tt, s).
Proof.
  intro H. run. rewrite H. reflexivity.
Qed.

Lemma ensureValidToken_stale client account (s : State) :
  let tokens := credentials (client_at (store s) client) in
  let a := account_at (store s) account in
  needs_refresh tokens a (Date_now (world s)) = true ->
  exists r s2,
    ensureValidToken client account s = (r, s2)
    /\ trace s2 = (trace s ++ [RefreshAccessToken client])%list
    /\ match token_endpoint tokens (world s) with
       | (inl cause, _) => r = inl (TokenRefreshFailed (email a) cause)
       | (inr fresh, _) =>
           r = inr tt /\ credentials (client_at (store s2) client) = fresh
       end.
Proof.
  intros tokens a H. subst tokens a. run. rewrite H.
  destruct (token_endpoint _ (world s)) as [[cause|fresh] w]; simpl.
  - eexists _, _. split; [reflexivity|]. split; reflexivity.
  - destruct (tokens_listener (client_at (store s) client)) as [listener|]; simpl.
    + destruct (truthy_string (access_token fresh)); simpl;
        (eexists _, _; split; [reflexivity|]; split; [reflexivity|];
         split; [reflexivity|]; simpl; now rewrite Nat.eqb_refl).
    + eexists _, _. split; [reflexivity|]. split; [reflexivity|].
      split; [reflexivity|]. simpl. now rewrite Nat.eqb_refl.
Qed.

Lemma refreshes_app t1 t2 : refreshes (t1 ++ t2) = (refreshes t1 + refreshes t2)%nat.
Proof. unfold refreshes. now rewrite filter_app, length_app. Qed.

Lemma resolveAccount_state idOrEmail (s : State) :
  snd (resolveAccount idOrEmail s) = s.
Proof.
  unfold resolveAccount, bind, get, ret, throw.
  destruct (truthy_string idOrEmail).
  - destruct (getAccount _ s); reflexivity.
  - destruct (listAccounts s) as [|first rest]; [reflexivity|].
    destruct (getAccount _ s); reflexivity.
Qed.

(** Resolving the account and fetching its client refreshes nothing. *)
Lemma beforeTokenCheck_refreshes idOrEmail (s : State) :
  refreshes (trace (snd (beforeTokenCheck idOrEmail s))) = refreshes (trace s).
Proof.
  unfold beforeTokenCheck, bind at 1.
  pose proof (resolveAccount_state idOrEmail s) as Hs.
  destruct (resolveAccount idOrEmail s) as [[e|account] s0]; simpl in Hs; subst s0;
    [reflexivity|].
  run. destruct (Map_get _ _ _); simpl; [reflexivity|].
  rewrite refreshes_app. unfold refreshes. simpl. lia.
Qed.


(** ** Registrations *)

Lemma register_eq (r : Registration) (s : State) :
  register r s
  = (inr tt,
     mkState
       (mkManager
          (Map_set string_dec (toLowerCase (r_email r)) (account_next (store s))
             (Map_set string_dec (r_id r) (account_next (store s))
                (accounts (manager s))))
          (Map_delete string_dec (toLowerCase (r_email r))
             (Map_delete string_dec (r_id r) (authClients (manager s))))
          (clientId (manager s)) (clientSecret (manager s)))
       (mkStore
          (fun l => if Nat.eqb l (account_next (store s)) then record_of r
                    else account_at (store s) l)
          (S (account_next (store s)))
          (client_at (store s)) (client_next (store s)))
       (world s) (trace s)).
Proof.
  unfold register. run. rewrite Nat.eqb_refl. reflexivity.
Qed.

Lemma registerAll_cons r rs (s : State) :
  registerAll rs (snd (register r s)) = registerAll (r :: rs) s.
Proof.
  change (registerAll (r :: rs) s)
    with (match register r s with
          | (inr _, s') => registerAll rs s'
          | (inl e, s') => (inl e, s')
          end).
  rewrite register_eq. reflexivity.
Qed.

Lemma registerAll_ok rs (s : State) : fst (registerAll rs s) = inr tt.
Proof.
  revert s. induction rs as [|r rs IH]; intro s; [reflexivity|].
  rewrite <- registerAll_cons. apply IH.
Qed.

Lemma registerAll_accounts k rs (s : State) :
  Map_get string_dec k (accounts (manager (snd (registerAll rs s))))
  = match writer k rs (account_next (store s)) with
    | Some l => Some l
    | None => Map_get string_dec k (accounts (manager s))
    end.
Proof.
  revert s. induction rs as [|r rs IH]; intro s; [reflexivity|].
  rewrite <- registerAll_cons, IH, register_eq. simpl.
  destruct (writer k rs (S (account_next (store s)))); [reflexivity|].
  rewrite !Map_get_set.
  destruct (string_dec k (toLowerCase (r_email r))); [reflexivity|].
  destruct (string_dec k (r_id r)); reflexivity.
Qed.

Lemma registerAll_store rs (s : State) l :
  account_at (store (snd (registerAll rs s))) l
  = if Nat.ltb l (account_next (store s)) then account_at (store s) l
    else match nth_error rs (l - account_next (store s)) with
         | Some r => record_of r
         | None => account_at (store s) l
         end.
Proof.
  revert s. induction rs as [|r rs IH]; intro s.
  - simpl. destruct (Nat.ltb l _); [reflexivity|].
    now destruct (l - account_next (store s))%nat.
  - rewrite <- registerAll_cons, IH, register_eq. simpl.
    destruct (Nat.ltb_spec l (S (account_next (store s)))) as [L|L].
    + destruct (Nat.eqb_spec l (account_next (store s))) as [->|N].
      * rewrite Nat.ltb_irrefl, Nat.sub_diag. reflexivity.
      * destruct (Nat.ltb_spec l (account_next (store s))); [reflexivity|lia].
    + destruct (Nat.ltb_spec l (account_next (store s))); [lia|].
      replace (l - account_next (store s))%nat
        with (S (l - S (account_next (store s)))) by lia.
      simpl. destruct (nth_error rs _); [reflexivity|].
      destruct (Nat.eqb_spec l (account_next (store s))); [lia|reflexivity].
Qed.

Lemma writer_Some k rs n l :
  writer k rs n = Some l ->
  exists j r,
    l = (n + j)%nat /\ nth_error rs j = Some r
    /\ (k = toLowerCase (r_email r) \/ k = r_id r)
    /\ forall j' r', (j < j')%nat -> nth_error rs j' = Some r' ->
         k <> toLowerCase (r_email r') /\ k <> r_id r'.
Proof.
  revert n l. induction rs as [|r rs IH]; intros n l; simpl; [discriminate|].
  destruct (writer k rs (S n)) as [l'|] eqn:W.
  - intros [= <-]. destruct (IH _ _ W) as (j & r0 & -> & Hn & Hk & Hlast).
    exists (S j), r0. repeat split; [lia|assumption|assumption| |].
    all: destruct j' as [|j']; [lia|]; simpl in H0;
      apply (Hlast j' r'); [lia|assumption].
  - assert (Hnone : forall j' r', nth_error rs j' = Some r' ->
              k <> toLowerCase (r_email r') /\ k <> r_id r').
    { clear -W. revert W. generalize (S n). induction rs as [|r rs IH]; intros m W j' r' Hj.
      - destruct j'; discriminate.
      - simpl in W. destruct (writer k rs (S m)) eqn:W'; [discriminate|].
        destruct (string_dec k (toLowerCase (r_email r))); [discriminate|].
        destruct (string_dec k (r_id r)); [discriminate|].
        destruct j' as [|j']; simpl in Hj.
        + injection Hj as <-. split; assumption.
        + eapply IH; eassumption. }
    intro H. exists 0%nat, r.
    destruct (string_dec k (toLowerCase (r_email r))) as [E|NE].
    + injection H as <-. repeat split; [lia|auto| |];
        destruct j' as [|j']; [lia| |lia|]; simpl in H0; now apply (Hnone j' r').
    + destruct (string_dec k (r_id r)) as [E|NE']; [|discriminate].
      injection H as <-. repeat split; [lia|auto| |];
        destruct j' as [|j']; [lia| |lia|]; simpl in H0; now apply (Hnone j' r').
Qed.

Lemma writer_None k rs n :
  writer k rs n = None ->
  forall r, In r rs -> k <> toLowerCase (r_email r) /\ k <> r_id r.
Proof.
  revert n. induction rs as [|r rs IH]; intros n W r0; [intros []|].
  intros [<-|I]; simpl in W;
    destruct (writer k rs (S n)) eqn:W'; try discriminate;
    destruct (string_dec k (toLowerCase (r_email r))); try discriminate;
    destruct (string_dec k (r_id r)); try discriminate.
  - split; assumption.
  - eapply IH; eassumption.
Qed.

(** A key written by the registration at [j] is answered by it or by a
    later one. *)
Lemma writer_written k rs n j r :
  nth_error rs j = Some r ->
  k = toLowerCase (r_email r) \/ k = r_id r ->
  exists j0 r0,
    writer k rs n = Some (n + j0)%nat /\ (j <= j0)%nat
    /\ nth_error rs j0 = Some r0
    /\ (k = toLowerCase (r_email r0) \/ k = r_id r0).
Proof.
  intros Hj Hk. destruct (writer k rs n) as [l|] eqn:W.
  - destruct (writer_Some _ _ _ _ W) as (j0 & r0 & -> & Hn & Hk0 & Hlast).
    exists j0, r0. repeat split; try assumption.
    destruct (Nat.le_gt_cases j j0) as [L|L]; [assumption|].
    destruct (Hlast j r L Hj). tauto.
  - destruct (writer_None _ _ _ W r (nth_error_In _ _ Hj)). tauto.
Qed.


Lemma registered_lookup k rs (w : World) :
  Map_get string_dec k (accounts (manager (registered rs w))) = writer k rs 0.
Proof.
  unfold registered. rewrite registerAll_accounts. simpl.
  now destruct (writer k rs 0).
Qed.

Lemma registered_record rs (w : World) j r :
  nth_error rs j = Some r ->
  account_at (store (registered rs w)) j = record_of r.
Proof.
  intro H. unfold registered. rewrite registerAll_store. simpl.
  rewrite Nat.sub_0_r, H. reflexivity.
Qed.

(** Under [no_key_collision], a key that reads as the e-mail of the latest
    registration of an id, whatever the letter case, can only have been
    written by a registration of that id. *)
Lemma email_key_owner rs j r k j0 r0 :
  no_key_collision rs ->
  nth_error rs j = Some r ->
  nth_error rs j0 = Some r0 ->
  toLowerCase k = toLowerCase (r_email r) ->
  k = toLowerCase (r_email r0) \/ k = r_id r0 ->
  r_id r0 = r_id r.
Proof.
  intros NC Hj Hj0 Hk Hw.
  destruct (string_dec (r_id r0) (r_id r)) as [E|NE]; [assumption|exfalso].
  destruct (NC r0 r (nth_error_In _ _ Hj0) (nth_error_In _ _ Hj) NE) as [N1 N2].
  destruct Hw as [->| ->].
  - rewrite toLowerCase_idem in Hk. contradiction.
  - contradiction.
Qed.

Lemma id_key_owner rs j r j0 r0 :
  no_key_collision rs ->
  nth_error rs j = Some r ->
  nth_error rs j0 = Some r0 ->
  r_id r = toLowerCase (r_email r0) \/ r_id r = r_id r0 ->
  r_id r0 = r_id r.
Proof.
  intros NC Hj Hj0 [E|E]; [|congruence].
  destruct (string_dec (r_id r0) (r_id r)) as [E'|NE]; [assumption|exfalso].
  assert (NE' : r_id r <> r_id r0) by congruence.
  destruct (NC r r0 (nth_error_In _ _ Hj) (nth_error_In _ _ Hj0) NE') as [_ N2].
  apply N2. rewrite E at 1. apply toLowerCase_idem.
Qed.

Lemma latest_is_last rs j r j0 r0 :
  latest_for_id rs j r -> nth_error rs j0 = Some r0 -> r_id r0 = r_id r ->
  (j0 <= j)%nat.
Proof.
  intros [_ Hlast] Hj0 E.
  destruct (Nat.le_gt_cases j0 j) as [L|L]; [assumption|].
  destruct (Hlast j0 r0 L Hj0 E).
Qed.

(** C6, amended.  After any sequence of registrations on a fresh manager
    in which registrations under different ids share no key, the latest
    registration of every id is found under its id and under its e-mail in
    any letter case, and both look-ups answer the same record: the one
    that registration created. *)
Theorem registered_reachable_by_either_key rs (w : World) :
  no_key_collision rs -> reachable_by_either_key rs w.
Proof.
  intros NC j r Hl e He. pose proof Hl as [Hj _].
  assert (Hid : getAccount (r_id r) (registered rs w) = Some j).
  { unfold getAccount. rewrite registered_lookup.
    destruct (writer_written (r_id r) rs 0 j r Hj (or_intror eq_refl))
      as (j0 & r0 & -> & Hle & Hj0 & Hw).
    pose proof (id_key_owner rs j r j0 r0 NC Hj Hj0 Hw) as E.
    pose proof (latest_is_last rs j r j0 r0 Hl Hj0 E).
    simpl. f_equal. lia. }
  assert (Hlow : Map_get string_dec (toLowerCase e)
                   (accounts (manager (registered rs w))) = Some j).
  { rewrite registered_lookup.
    destruct (writer_written (toLowerCase e) rs 0 j r Hj (or_introl He))
      as (j0 & r0 & -> & Hle & Hj0 & Hw).
    assert (E : r_id r0 = r_id r).
    { apply (email_key_owner rs j r (toLowerCase e) j0 r0 NC Hj Hj0); [|assumption].
      now rewrite toLowerCase_idem. }
    pose proof (latest_is_last rs j r j0 r0 Hl Hj0 E).
    simpl. f_equal. lia. }
  split; [assumption|]. split; [|now apply registered_record].
  unfold getAccount. rewrite Hlow, registered_lookup.
  destruct (writer e rs 0) as [l|] eqn:W; [|reflexivity].
  destruct (writer_Some _ _ _ _ W) as (j0 & r0 & -> & Hj0 & Hw & _).
  assert (E : r_id r0 = r_id r)
    by (apply (email_key_owner rs j r e j0 r0 NC Hj Hj0 He Hw)).
  pose proof (latest_is_last rs j r j0 r0 Hl Hj0 E) as Hle.
  assert (Hwr : e = toLowerCase (r_email r) \/ e = r_id r).
  { destruct Hw as [->| ->].
    - left. rewrite toLowerCase_idem in He. assumption.
    - right. assumption. }
  destruct (writer_written e rs 0 j r Hj Hwr) as (j1 & r1 & W1 & Hle1 & _).
  rewrite W in W1. injection W1 as W1. simpl in *. f_equal. lia.
Qed.


(** ** A stale e-mail key *)

Lemma registerAccount_register i e t a (s : State) :
  registerAccount i e t a s = register (mkRegistration i e t a) s.
Proof. reflexivity. Qed.


(** ** The account used without a selector *)

Lemma listAccounts_head (s : State) key first rest :
  accounts (manager s) = (key, first) :: rest ->
  exists others,
    listAccounts s
    = (id (account_at (store s) first), email (account_at (store s) first))
        :: others.
Proof.
  intro H. unfold listAccounts. rewrite H. simpl. eexists. reflexivity.
Qed.

Lemma cachedClient_total account (s : State) :
  exists client s1,
    cachedClient account s = (inr client, s1)
    /\ account_at (store s1) = account_at (store s)
    /\ world s1 = world s.
Proof.
  run. destruct (Map_get _ _ _); eexists _, _; repeat split; reflexivity.
Qed.

Lemma ensureValidToken_outcomes client account (s : State) :
  exists r s2,
    ensureValidToken client account s = (r, s2)
    /\ (r = inr tt
        \/ exists cause,
             r = inl (TokenRefreshFailed (email (account_at (store s) account)) cause)).
Proof.
  destruct (needs_refresh (credentials (client_at (store s) client))
              (account_at (store s) account) (Date_now (world s))) eqn:E.
  - destruct (ensureValidToken_stale client account s E) as (r & s2 & Hr & _ & Hm).
    exists r, s2. split; [assumption|].
    destruct (token_endpoint _ (world s)) as [[cause|fresh] w].
    + right. now exists cause.
    + left. tauto.
  - rewrite (ensureValidToken_fresh client account s E).
    eexists _, _. split; [reflexivity|]. now left.
Qed.

Lemma getAuthClient_of_resolved idOrEmail (s : State) picked :
  resolveAccount idOrEmail s = (inr picked, s) ->
  exists r s',
    getAuthClient idOrEmail s = (r, s')
    /\ ((exists client, r = inr (client, picked))
        \/ exists cause,
             r = inl (TokenRefreshFailed (email (account_at (store s) picked)) cause)).
Proof.
  intro H. rewrite getAuthClient_stages. unfold beforeTokenCheck, bind at 1.
  rewrite H. unfold bind, ret.
  destruct (cachedClient_total picked s) as (client & s1 & -> & Ha & _).
  destruct (ensureValidToken_outcomes client picked s1) as (r & s2 & -> & Hr).
  rewrite Ha in Hr.
  destruct Hr as [->|[cause ->]]; eexists _, _; (split; [reflexivity|]).
  - left. now exists client.
  - right. now exists cause.
Qed.

Lemma resolveAccount_default (s : State) key first rest picked :
  accounts (manager s) = (key, first) :: rest ->
  getAccount (id (account_at (store s) first)) s = Some picked ->
  resolveAccount None s = (inr picked, s).
Proof.
  intros H Hp. destruct (listAccounts_head s key first rest H) as [others Hl].
  unfold resolveAccount, bind, get. simpl. rewrite Hl. simpl.
  rewrite Hp. reflexivity.
Qed.

(** C2, amended.  Without a selector, [getAuthClient] fails with the
    no-accounts error when the account map is empty; otherwise it uses the
    account found under the id of the record held by the first entry of
    the map, in insertion order, and either returns that account or fails
    refreshing its token.  The order of the ids plays no part. *)
Theorem getAuthClient_default_account (s : State) :
  (accounts (manager s) = [] ->
     getAuthClient None s = (inl NoAccountsConfigured, s))
  /\ (forall key first rest picked,
        accounts (manager s) = (key, first) :: rest ->
        getAccount (id (account_at (store s) first)) s = Some picked ->
        resolveAccount None s = (inr picked, s)
        /\ exists r s',
             getAuthClient None s = (r, s')
             /\ ((exists client, r = inr (client, picked))
                 \/ exists cause,
                      r = inl (TokenRefreshFailed
                                 (email (account_at (store s) picked)) cause))).
Proof.
  split.
  - intro H. unfold Accounts.getAuthClient, resolveAccount, listAccounts, bind, get.
    simpl. rewrite H. reflexivity.
  - intros key first rest picked H Hp.
    pose proof (resolveAccount_default s key first rest picked H Hp) as R.
    split; [assumption|]. now apply getAuthClient_of_resolved.
Qed.

(** The first key of the account map stays in front. *)
Lemma registerAll_head rs (s : State) k v m :
  accounts (manager s) = (k, v) :: m ->
  (forall r, In r rs -> k <> toLowerCase (r_email r) /\ k <> r_id r) ->
  exists m', accounts (manager (snd (registerAll rs s))) = (k, v) :: m'.
Proof.
  revert s v m. induction rs as [|r rs IH]; intros s v m H Hk.
  - exists m. assumption.
  - rewrite <- registerAll_cons.
    destruct (Hk r (or_introl eq_refl)) as [N1 N2].
    destruct (Map_set_head _ _ string_dec (r_id r) (account_next (store s)) k v m)
      as (v1 & m1 & E1 & Hv1).
    destruct (Map_set_head _ _ string_dec (toLowerCase (r_email r))
                (account_next (store s)) k v1 m1) as (v2 & m2 & E2 & Hv2).
    apply (IH _ v m2).
    + rewrite register_eq. simpl. rewrite H, E1, E2.
      rewrite Hv2, Hv1 by congruence. reflexivity.
    + intros r' I. apply Hk. now right.
Qed.

(** When no later registration writes the id of the first one, the first
    registered account is the one used without a selector. *)
Lemma default_account_first_registered r0 rs (w : World) :
  (forall r, In r rs -> r_id r0 <> toLowerCase (r_email r) /\ r_id r0 <> r_id r) ->
  resolveAccount None (registered (r0 :: rs) w) = (inr 0%nat, registered (r0 :: rs) w)
  /\ account_at (store (registered (r0 :: rs) w)) 0 = record_of r0.
Proof.
  intro Hk.
  assert (Hrec : account_at (store (registered (r0 :: rs) w)) 0 = record_of r0)
    by now apply registered_record.
  split; [|assumption].
  assert (exists m, accounts (manager (registered (r0 :: rs) w)) = (r_id r0, 0%nat) :: m)
    as [m Hm].
  { unfold registered. rewrite <- registerAll_cons.
    destruct (string_dec (toLowerCase (r_email r0)) (r_id r0)) as [E|NE].
    - apply (registerAll_head rs _ (r_id r0) 0%nat []); [|assumption].
      rewrite register_eq. simpl.
      destruct (string_dec (toLowerCase (r_email r0)) (r_id r0)); [|contradiction].
      congruence.
    - apply (registerAll_head rs _ (r_id r0) 0%nat
               [(toLowerCase (r_email r0), 0%nat)]); [|assumption].
      rewrite register_eq. simpl.
      destruct (string_dec (toLowerCase (r_email r0)) (r_id r0)); [contradiction|].
      reflexivity. }
  destruct (listAccounts_head _ _ _ _ Hm) as [others Hl].
  unfold resolveAccount, bind, get. simpl. rewrite Hl, Hrec. simpl.
  unfold getAccount. rewrite Hm. simpl.
  destruct (string_dec (r_id r0) (r_id r0)); [reflexivity|contradiction].
Qed.

(** After at least one registration the account used without a selector
    exists. *)
Lemma default_account_exists r0 rs (w : World) :
  exists picked,
    resolveAccount None (registered (r0 :: rs) w)
    = (inr picked, registered (r0 :: rs) w).
Proof.
  destruct (writer_written (r_id r0) (r0 :: rs) 0 0 r0 eq_refl (or_intror eq_refl))
    as (j0 & r1 & W0 & _).
  pose proof (registered_lookup (r_id r0) (r0 :: rs) w) as L0. rewrite W0 in L0.
  destruct (accounts (manager (registered (r0 :: rs) w))) as [|[key first] rest] eqn:E;
    [discriminate|].
  assert (Hhead : writer key (r0 :: rs) 0 = Some first).
  { rewrite <- (registered_lookup key (r0 :: rs) w), E. simpl.
    destruct (string_dec key key); [reflexivity|contradiction]. }
  destruct (writer_Some _ _ _ _ Hhead) as (j & r & -> & Hj & _).
  destruct (writer_written (r_id r) (r0 :: rs) 0 j r Hj (or_intror eq_refl))
    as (j1 & r2 & W1 & _).
  exists j1. apply (resolveAccount_default _ key j rest); [exact E|].
  rewrite (registered_record (r0 :: rs) w j r Hj). simpl.
  unfold getAccount. now rewrite registered_lookup, W1.
Qed.

(** ** Re-registration and the client cache *)


End ManagerFacts.

(** ** Concrete runs *)


(** C2 as stated fails: with "b" registered before "a", the account used
    without a selector is "b", whose id is not the least. *)
Lemma picks_least_id_counterexample :
  ~ picks_least_id sample_now granting_endpoint (registered b_then_a 1000000%Z).
Proof.
  intro H.
  assert (E : getAuthClient sample_now granting_endpoint None (registered b_then_a 1000000%Z)
              = (inr (0%nat, 0%nat),
                 snd (getAuthClient sample_now granting_endpoint None
                        (registered b_then_a 1000000%Z))))
    by (vm_compute; reflexivity).
  specialize (H _ _ _ E ("a", "a@x.com")).
  vm_compute in H.
  discriminate (H (or_intror (or_introl eq_refl))).
Qed.

(** C2, amended, at work: with "b" registered before "a" the first entry of
    the map is "b", and this is the account resolved without a selector. *)
Lemma getAuthClient_default_account_witness :
  resolveAccount None (registered b_then_a 1000000%Z)
  = (inr 0%nat, registered b_then_a 1000000%Z)
  /\ id (account_at (store (registered b_then_a 1000000%Z)) 0) = "b".
Proof.
  split; [|vm_compute; reflexivity].
  destruct (getAuthClient_default_account Z sample_now granting_endpoint
              (registered b_then_a 1000000%Z)) as [_ H].
  destruct (H "b" 0%nat [("b@x.com", 0%nat); ("a", 1%nat); ("a@x.com", 1%nat)] 0%nat)
    as [R _]; [vm_compute; reflexivity|vm_compute; reflexivity|exact R].
Defined.

(** C6 as stated fails: when two ids are registered with one e-mail, the
    first id and its e-mail answer different records. *)
Lemma reachable_by_either_key_counterexample :
  ~ reachable_by_either_key shared_email 1000000%Z.
Proof.
  intro H.
  destruct (H 0%nat (mkRegistration "a" "x@y.com" "1//a" None)) with (e := "x@y.com")
    as (_ & H2 & _).
  - split; [reflexivity|].
    intros [|[|[|j']]] r' Hj Hn; simpl in Hn; try discriminate; try lia.
    injection Hn as <-. discriminate.
  - reflexivity.
  - vm_compute in H2. discriminate.
Qed.

(** C6, amended, at work: "main" registered, then "client1", then "main"
    again with another e-mail; the id and the new e-mail in another letter
    case both answer the third record. *)
Lemma registered_reachable_by_either_key_witness :
  getAccount "main" (registered [main_account; client_account; main_again] 1000000%Z)
  = Some 2%nat
  /\ getAccount "NEW@Gmail.COM" (registered [main_account; client_account; main_again] 1000000%Z)
     = Some 2%nat
  /\ account_at (store (registered [main_account; client_account; main_again] 1000000%Z)) 2
     = record_of main_again.
Proof.
  refine (registered_reachable_by_either_key Z
            [main_account; client_account; main_again] 1000000%Z _
            2%nat main_again _ "NEW@Gmail.COM" _).
  - intros r1 r2 H1 H2 Hne.
    destruct H1 as [<-|[<-|[<-|[]]]]; destruct H2 as [<-|[<-|[<-|[]]]];
      try (exfalso; apply Hne; reflexivity); split; discriminate.
  - split; [reflexivity|].
    intros j' r' Hj Hn. do 3 (destruct j' as [|j']; [lia|]).
    destruct j'; discriminate.
  - reflexivity.
Defined.




(** After "main", "client1" and "main" again, two accounts are listed, in
    the order of their first keys, "main" with its latest e-mail. *)
Example listAccounts_sample :
  listAccounts (registered [main_account; client_account; main_again] 1000000%Z)
  = [("main", "new@gmail.com"); ("client1", "client@gmail.com")]
  /\ count (registered [main_account; client_account; main_again] 1000000%Z) = 2%nat.
Proof. split; vm_compute; reflexivity. Qed.

(** A first call refreshes the token of "main"; a second one, within the
    hour, reuses the cached client and refreshes nothing. *)
Example getAuthClient_twice :
  trace (snd ((getAuthClient sample_now granting_endpoint (Some "main") ;;;
               getAuthClient sample_now granting_endpoint (Some "MAIN@gmail.com"))
                only_main))
  = [NewOAuth2Client 0%nat; RefreshAccessToken 0%nat].
Proof. vm_compute. reflexivity. Qed.

End AccountsProofs.

(* ================================================================== *)
(** * Properties of the Search Console service *)
(* ================================================================== *)

Module SearchConsoleProofs.
Import JSFacts SearchConsole SearchConsoleSpec.

Section ServiceFacts.

Variable World : Type.
Variable Payload : Type.
Variable searchanalytics :
  string -> SearchAnalyticsRequest -> World -> (thrown + SearchAnalyticsData) * World.
Variable googleapis : request -> World -> (thrown + Payload) * World.
Variable URL_parse : string -> option URL.

Local Notation "'State'" := (SearchConsole.State World).
Local Notation "'normalizeUrl'" := (SearchConsole.normalizeUrl URL_parse).
Local Notation "'searchAnalytics'" :=
  (SearchConsole.searchAnalytics searchanalytics URL_parse).
Local Notation "'listSitemaps'" := (SearchConsole.listSitemaps googleapis URL_parse).
Local Notation "'submitSitemap'" := (SearchConsole.submitSitemap googleapis URL_parse).
Local Notation "'detectQuickWins'" :=
  (SearchConsole.detectQuickWins searchanalytics URL_parse).
Local Notation "'comparePeriods'" :=
  (SearchConsole.comparePeriods searchanalytics URL_parse).

(** ** The permission fallback *)

Lemma handlePermissionError_eq (T : Type) (operation fallbackOperation : M State T) s :
  handlePermissionError operation fallbackOperation s
  = match operation s with
    | (inr v, s1) => (inr v, s1)
    | (inl err, s1) =>
        if isPermissionError err then fallbackOperation s1 else (inl err, s1)
    end.
Proof.
  unfold handlePermissionError, try_catch.
  destruct (operation s) as [[err|v] s1]; [|reflexivity].
  destruct (isPermissionError err); reflexivity.
Qed.

Lemma call_searchanalytics_requests siteUrl requestBody (s : State) :
  requests (snd (call_searchanalytics searchanalytics siteUrl requestBody s))
  = (requests s ++ [searchanalytics_query siteUrl requestBody])%list.
Proof.
  unfold call_searchanalytics.
  destruct (searchanalytics siteUrl requestBody (world s)). reflexivity.
Qed.

Lemma call_requests rq (s : State) :
  requests (snd (call googleapis rq s)) = (requests s ++ [rq])%list.
Proof.
  unfold call. destruct (googleapis rq (world s)). reflexivity.
Qed.

(** An operation made of [handlePermissionError] around one logged call
    follows the policy. *)
Lemma fallback_policy_intro (T : Type) request_for
    (attempt operation : string -> M State T) :
  (forall u s, requests (snd (attempt u s)) = (requests s ++ [request_for u])%list) ->
  (forall u s, operation u s
               = handlePermissionError (attempt u) (attempt (normalizeUrl u)) s) ->
  fallback_policy URL_parse request_for attempt operation.
Proof.
  intros Hlog Hop siteUrl s.
  pose proof (Hlog siteUrl s) as L1.
  rewrite Hop, handlePermissionError_eq.
  destruct (attempt siteUrl s) as [[err|v] s1]; simpl in L1.
  - split; [assumption|].
    destruct (isPermissionError err); [|reflexivity].
    pose proof (Hlog (normalizeUrl siteUrl) s1) as L2.
    destruct (attempt (normalizeUrl siteUrl) s1) as [second s2]; simpl in L2.
    split; [reflexivity|].
    rewrite L2, L1, <- app_assoc. reflexivity.
  - split; [assumption|reflexivity].
Qed.

Lemma normalizeUrl_http url parsed :
  URL_parse url = Some parsed ->
  protocol parsed = "http:" \/ protocol parsed = "https:" ->
  normalizeUrl url = "sc-domain:" ++ hostname parsed.
Proof.
  intros H [E|E]; unfold SearchConsole.normalizeUrl; rewrite H, E; reflexivity.
Qed.

Lemma normalizeUrl_unparsable url : URL_parse url = None -> normalizeUrl url = url.
Proof. intro H. unfold SearchConsole.normalizeUrl. now rewrite H. Qed.

Lemma normalizeUrl_other url parsed :
  URL_parse url = Some parsed ->
  protocol parsed <> "http:" -> protocol parsed <> "https:" ->
  normalizeUrl url = url.
Proof.
  intros H N1 N2. unfold SearchConsole.normalizeUrl. rewrite H.
  apply String.eqb_neq in N1, N2. now rewrite N1, N2.
Qed.


(** ** Quick wins *)

Lemma detectQuickWins_eq siteUrl startDate endDate th (s : State) :
  detectQuickWins siteUrl startDate endDate th s
  = match searchAnalytics siteUrl
            (mkRequest startDate endDate ["query"; "page"] 25000%Q "all") s with
    | (inr result, s1) => (inr (quickWinsOf th (rows_or_empty result)), s1)
    | (inl err, s1) => (inl err, s1)
    end.
Proof. reflexivity. Qed.

Lemma isQuickWin_iff th row : isQuickWin th row = true <-> keeps th row.
Proof.
  unfold isQuickWin, keeps, Number_ge.
  rewrite !andb_true_iff, !Number_le_iff. tauto.
Qed.

Lemma targetCtr_spec position : is_targetCtr position (targetCtr position).
Proof.
  unfold is_targetCtr, targetCtr.
  destruct (Number_le position 5%Q) eqn:E5.
  - left. apply Number_le_iff in E5. now split.
  - apply Number_le_false_iff in E5.
    destruct (Number_le position 10%Q) eqn:E10.
    + right. left. apply Number_le_iff in E10. now repeat split.
    + right. right. apply Number_le_false_iff in E10. now split.
Qed.

Lemma Math_round_spec x : is_rounded x (Math_round x).
Proof.
  unfold is_rounded, Math_round. exists (Qfloor (x + (1 # 2))%Q).
  split; [reflexivity|].
  pose proof (Qfloor_le (x + (1 # 2))%Q) as Hle.
  pose proof (Qlt_floor (x + (1 # 2))%Q) as Hlt.
  rewrite inject_Z_plus in Hlt. change (inject_Z 1) with 1%Q in Hlt.
  split; lra.
Qed.

Lemma Math_max_zero d :
  ((d <= 0)%Q /\ (Math_max 0%Q d == 0)%Q)
  \/ ((0 <= d)%Q /\ (Math_max 0%Q d == d)%Q).
Proof.
  unfold Math_max. destruct (Number_lt 0%Q d) eqn:E.
  - right. apply Number_lt_iff in E. split; [lra|reflexivity].
  - left. apply Number_lt_false_iff in E. split; [assumption|reflexivity].
Qed.

Lemma opportunityOf_spec additional : is_opportunity additional (opportunityOf additional).
Proof.
  unfold is_opportunity, opportunityOf, Number_ge.
  destruct (Number_le 100%Q additional) eqn:E1.
  - left. apply Number_le_iff in E1. now split.
  - apply Number_le_false_iff in E1.
    destruct (Number_le 30%Q additional) eqn:E2.
    + right. left. apply Number_le_iff in E2. now repeat split.
    + right. right. apply Number_le_false_iff in E2. now split.
Qed.

Lemma toQuickWin_describes row : describes row (toQuickWin row).
Proof.
  unfold describes. exists (targetCtr (number_or_zero (position row))).
  split; [apply targetCtr_spec|].
  split; [apply Math_round_spec|].
  split; [apply Math_max_zero|].
  split; [apply opportunityOf_spec|].
  split; reflexivity.
Qed.

Lemma quickWinsOf_length th rows :
  List.length (quickWinsOf th rows)
  = slice_length (limit th) (List.length (filter (isQuickWin th) rows)).
Proof.
  unfold quickWinsOf.
  now rewrite Array_slice0_length, Array_sort_length, length_map.
Qed.

Lemma filter_length_le (A : Type) (p q : A -> bool) l :
  (forall x, p x = true -> q x = true) ->
  (List.length (filter p l) <= List.length (filter q l))%nat.
Proof.
  intro H. induction l as [|x l IH]; simpl; [lia|].
  destruct (p x) eqn:P.
  - rewrite (H x P). simpl. lia.
  - destruct (q x); simpl; lia.
Qed.

Lemma tighter_keeps th th' row : tighter th th' -> keeps th' row -> keeps th row.
Proof.
  unfold tighter, keeps. intros (H1 & H2 & H3 & E & _) (K1 & K2 & K3 & K4).
  rewrite E in K2. repeat split; try assumption; lra.
Qed.



(** C8.  On the same fetched rows, thresholds with a higher minImpressions,
    a higher positionRangeMin or a lower positionRangeMax never give more
    quick wins. *)
Theorem detectQuickWins_monotone siteUrl startDate endDate th th' (s : State) data s1 :
  tighter th th' ->
  searchAnalytics siteUrl
    (mkRequest startDate endDate ["query"; "page"] 25000%Q "all") s
  = (inr data, s1) ->
  exists quickWins quickWins',
    detectQuickWins siteUrl startDate endDate th s = (inr quickWins, s1)
    /\ detectQuickWins siteUrl startDate endDate th' s = (inr quickWins', s1)
    /\ (List.length quickWins' <= List.length quickWins)%nat.
Proof.
  intros Ht H. rewrite !detectQuickWins_eq, H.
  eexists _, _. split; [reflexivity|]. split; [reflexivity|].
  rewrite !quickWinsOf_length.
  pose proof Ht as (_ & _ & _ & _ & El). rewrite El.
  apply slice_length_mono, filter_length_le.
  intros row Hrow. apply isQuickWin_iff. apply isQuickWin_iff in Hrow.
  now apply (tighter_keeps th th').
Qed.

(** C9.  The quick wins are the candidates in descending order of
    [additionalClicks], those with equal [additionalClicks] in their
    original relative order, cut to a prefix, which for a non-negative
    [limit] has [limit] elements (its integer part), or all when there are
    fewer. *)
Theorem detectQuickWins_ranking siteUrl startDate endDate th (s : State) data s1 :
  searchAnalytics siteUrl
    (mkRequest startDate endDate ["query"; "page"] 25000%Q "all") s
  = (inr data, s1) ->
  let candidates := map toQuickWin (filter (isQuickWin th) (rows_or_empty data)) in
  exists ranked,
    Permutation ranked candidates
    /\ StronglySorted descending ranked
    /\ (forall v, with_additionalClicks v ranked = with_additionalClicks v candidates)
    /\ exists n,
         detectQuickWins siteUrl startDate endDate th s = (inr (firstn n ranked), s1)
         /\ ((0 <= limit th)%Q ->
             n = Nat.min (Z.to_nat (Qfloor (limit th))) (List.length ranked)).
Proof.
  intros H candidates.
  exists (Array_sort byAdditionalClicks candidates).
  split; [apply Array_sort_perm|].
  split; [apply (Array_sort_sorted _ byAdditionalClicks additionalClicks); reflexivity|].
  split.
  { intro v. apply (Array_sort_stable _ byAdditionalClicks additionalClicks).
    reflexivity. }
  exists (slice_length (limit th)
            (List.length (Array_sort byAdditionalClicks candidates))).
  split.
  - rewrite detectQuickWins_eq, H. reflexivity.
  - apply slice_length_nonneg.
Qed.

(** ** Period comparison *)

Lemma comparePeriods_eq siteUrl currentStart currentEnd previousStart previousEnd
    (dimensions : option (list string)) (rowLimit : option number) (s : State) :
  comparePeriods siteUrl currentStart currentEnd previousStart previousEnd
    dimensions rowLimit s
  = match searchAnalytics siteUrl
            (mkRequest currentStart currentEnd (or_default dimensions ["query"])
               (or_default rowLimit 100%Q) "all") s with
    | (inr current, s1) =>
        match searchAnalytics siteUrl
                (mkRequest previousStart previousEnd (or_default dimensions ["query"])
                   (or_default rowLimit 100%Q) "all") s1 with
        | (inr previous, s2) =>
            (inr (compareRows currentStart currentEnd previousStart previousEnd
                    (rows_or_empty current) (rows_or_empty previous)), s2)
        | (inl err, s2) => (inl err, s2)
        end
    | (inl err, s1) => (inl err, s1)
    end.
Proof.
  unfold SearchConsole.comparePeriods, bind, ret.
  destruct (searchAnalytics siteUrl _ s) as [[err|current] s1]; [reflexivity|].
  destruct (searchAnalytics siteUrl _ s1) as [[err|previous] s2]; reflexivity.
Qed.

Lemma unmatched_lookup previousRows currentRow :
  unmatched previousRows currentRow ->
  Map_get key_dec (Some (string_or (joined_key currentRow) ""))
    (previousLookupOf previousRows) = None.
Proof.
  intro H. unfold previousLookupOf. apply Map_of_None.
  rewrite map_map. simpl. intro I. apply in_map_iff in I.
  destruct I as (p & E & Hp). exact (H p Hp E).
Qed.

Lemma percentChange_positive current previous :
  (0 < previous)%Q ->
  percentChange current previous
  = Some (Finite (Number_toFixed 1 ((current - previous) / previous * 100)%Q)).
Proof.
  intro H. unfold percentChange, Number_gt, Number_div.
  assert (Number_lt 0%Q previous = true) as -> by now apply Number_lt_iff.
  destruct (Qeq_bool previous 0%Q) eqn:E; [|reflexivity].
  apply Qeq_bool_iff in E. lra.
Qed.

Lemma percentChange_null current previous :
  (previous <= 0)%Q -> percentChange current previous = None.
Proof.
  intro H. unfold percentChange, Number_gt.
  assert (Number_lt 0%Q previous = false) as -> by now apply Number_lt_false_iff.
  reflexivity.
Qed.

Lemma percentChange_finite current previous :
  percentChange current previous <> Some NonFinite.
Proof.
  destruct (Qlt_le_dec 0%Q previous) as [L|L].
  - rewrite percentChange_positive by assumption. discriminate.
  - rewrite percentChange_null by assumption. discriminate.
Qed.


End ServiceFacts.


(** ** Concrete runs *)

(** The sample parser reads a domain property with protocol sc-domain:. *)
Lemma simple_URL_parse_sc_domain url parsed :
  String.prefix "sc-domain:" url = true ->
  simple_URL_parse url = Some parsed -> protocol parsed = "sc-domain:".
Proof.
  intros Hp H. unfold simple_URL_parse in H. rewrite Hp in H.
  destruct url as [|c url]; [discriminate|].
  change (String.prefix "sc-domain:" (String c url))
    with (if ascii_dec "s" c then String.prefix "c-domain:" url else false) in Hp.
  destruct (ascii_dec "s" c) as [<-|]; [|discriminate].
  change (String.prefix "https://" (String "s" url)) with false in H.
  change (String.prefix "http://" (String "s" url)) with false in H.
  now injection H as <-.
Qed.



(** C8 at work: the strict thresholds against the defaults. *)
Lemma detectQuickWins_monotone_witness :
  tighter default_thresholds strict_thresholds
  /\ exists quickWins quickWins',
       SearchConsole.detectQuickWins domain_only_searchanalytics simple_URL_parse
         "sc-domain:example.com" "2024-02-01" "2024-02-29" default_thresholds idle
       = (inr quickWins,
          mkState 1%nat [searchanalytics_query "sc-domain:example.com" february])
       /\ SearchConsole.detectQuickWins domain_only_searchanalytics simple_URL_parse
            "sc-domain:example.com" "2024-02-01" "2024-02-29" strict_thresholds idle
          = (inr quickWins',
             mkState 1%nat [searchanalytics_query "sc-domain:example.com" february])
       /\ (List.length quickWins' <= List.length quickWins)%nat.
Proof.
  assert (T : tighter default_thresholds strict_thresholds).
  { repeat split; vm_compute; discriminate. }
  split; [exact T|].
  apply (detectQuickWins_monotone nat domain_only_searchanalytics simple_URL_parse
           "sc-domain:example.com" "2024-02-01" "2024-02-29" default_thresholds
           strict_thresholds idle (mkData (Some sample_rows)) _ T).
  vm_compute. reflexivity.
Defined.

(** C9 at work: the default limit of 50. *)
Lemma detectQuickWins_ranking_witness :
  (0 <= limit default_thresholds)%Q
  /\ exists ranked,
       StronglySorted descending ranked
       /\ SearchConsole.detectQuickWins domain_only_searchanalytics simple_URL_parse
            "sc-domain:example.com" "2024-02-01" "2024-02-29" default_thresholds idle
          = (inr (firstn (Nat.min 50 (List.length ranked)) ranked),
             mkState 1%nat [searchanalytics_query "sc-domain:example.com" february]).
Proof.
  assert (L : (0 <= limit default_thresholds)%Q) by (vm_compute; discriminate).
  split; [exact L|].
  destruct (detectQuickWins_ranking nat domain_only_searchanalytics simple_URL_parse
              "sc-domain:example.com" "2024-02-01" "2024-02-29" default_thresholds
              idle (mkData (Some sample_rows))
              (mkState 1%nat [searchanalytics_query "sc-domain:example.com" february]))
    as (ranked & _ & Hs & _ & n & Hd & Hn); [vm_compute; reflexivity|].
  exists ranked. split; [exact Hs|].
  rewrite Hd, (Hn L). reflexivity.
Defined.


(** The quick wins of the sample rows, by descending additional clicks;
    "seo tools" and "keyword research" tie and keep their order. *)
Example quickWinsOf_sample :
  map (fun qw => (query qw, page qw, additionalClicks qw, opportunity qw))
    (quickWinsOf default_thresholds sample_rows)
  = [("site audit", "N/A", 150%Q, High);
     ("seo tools", "https://example.com/tools", 30%Q, Medium);
     ("keyword research", "https://example.com/kw", 30%Q, Medium);
     ("rank tracker", "https://example.com/rank", 8%Q, Low)].
Proof. vm_compute. reflexivity. Qed.

(** "current {clicks:150}, previous {clicks:100}: clicksDelta = 50,
    clicksDeltaPercent = 50.0", and no percentage without previous clicks. *)
Example percentChange_samples :
  percentChange 150%Q 100%Q = Some (Finite (500 # 10)%Q)
  /\ percentChange 150%Q 0%Q = None.
Proof. split; vm_compute; reflexivity. Qed.

Example compareRows_sample :
  map (fun c => (ch_clicks (change c), clicksPercent (change c)))
    (comparison (compareRows "2024-02-01" "2024-02-29" "2024-01-01" "2024-01-31"
                   sample_rows previous_rows))
  = [(900%Q, None); (50%Q, None); (10%Q, Some (Finite (1000 # 10)%Q));
     (4%Q, None); (0%Q, None)].
Proof. vm_compute. reflexivity. Qed.

End SearchConsoleProofs.

Module AccountsExtras.
Import JSFacts Accounts AccountsSpec AccountsNotions AccountsProofs.

Section ManagerExtras.

Variable World : Type.
Variable Date_now : World -> number.
Variable token_endpoint : Credentials -> World -> (thrown + Credentials) * World.

Local Notation "'State'" := (Accounts.State World).
Local Notation "'getAuthClient'" := (Accounts.getAuthClient Date_now token_endpoint).
Local Notation "'ensureValidToken'" := (Accounts.ensureValidToken Date_now token_endpoint).

Ltac conj := repeat match goal with |- _ /\ _ => split end.

Ltac exec :=
  unfold Accounts.getAuthClient, beforeTokenCheck, Accounts.ensureValidToken,
    refreshAccessToken, ask_token_endpoint, on_tokens, setCredentials, on_,
    cachedClient, registerAccount, addAccount, new_account, new_client,
    read_account, write_account, read_client, write_client, log,
    set_manager, set_store, bind, ret, throw, get, modify, try_catch in *;
  simpl in *.

(** ** The listing *)

Lemma seen_iff i seen : existsb (String.eqb i) seen = true <-> In i seen.
Proof.
  rewrite existsb_exists. split.
  - intros (x & Hx & E). apply String.eqb_eq in E. now subst.
  - intro H. exists i. split; [assumption|apply String.eqb_refl].
Qed.

Lemma listAccounts_loop_spec (h : Store) entries seen :
  let listed := listAccounts_loop h entries seen in
  NoDup (map fst listed)
  /\ (forall i, In i (map fst listed) -> ~ In i seen)
  /\ (forall i e, In (i, e) listed ->
        exists key account,
          In (key, account) entries
          /\ id (account_at h account) = i /\ email (account_at h account) = e)
  /\ (forall key account, In (key, account) entries ->
        In (id (account_at h account)) seen
        \/ In (id (account_at h account)) (map fst listed)).
Proof.
  revert seen. induction entries as [|[key account] rest IH]; intro seen; simpl.
  - conj; [constructor|intros i []|intros i e []|intros k a []].
  - destruct (existsb (String.eqb (id (account_at h account))) seen) eqn:E.
    + destruct (IH seen) as (N & D & F & C).
      conj; try assumption.
      * intros i e I. destruct (F i e I) as (k & a & Hin & Hi & He).
        exists k, a. auto.
      * intros k a [[= <- <-]|I]; [left; now apply seen_iff|exact (C k a I)].
    + destruct (IH (id (account_at h account) :: seen)) as (N & D & F & C).
      assert (Hnew : ~ In (id (account_at h account)) seen).
      { intro I. apply seen_iff in I. congruence. }
      simpl. conj.
      * constructor; [|assumption]. intro I. apply (D _ I). now left.
      * intros i [<-|I]; [assumption|]. intro Hs. apply (D _ I). now right.
      * intros i e [[= <- <-]|I].
        -- exists key, account. auto.
        -- destruct (F i e I) as (k & a & Hin & Hi & He). exists k, a. auto.
      * intros k a [[= <- <-]|I]; [right; now left|].
        destruct (C k a I) as [[E'|Hs]|Hl]; [right; left; congruence|now left|].
        right. now right.
Qed.

Lemma listAccounts_spec (s : State) :
  NoDup (map fst (listAccounts s))
  /\ (forall i e, In (i, e) (listAccounts s) ->
        exists key account,
          In (key, account) (accounts (manager s))
          /\ id (account_at (store s) account) = i
          /\ email (account_at (store s) account) = e)
  /\ (forall key account, In (key, account) (accounts (manager s)) ->
        In (id (account_at (store s) account)) (map fst (listAccounts s))).
Proof.
  destruct (listAccounts_loop_spec (store s) (accounts (manager s)) [])
    as (N & _ & F & C).
  fold (listAccounts s) in N, F, C.
  conj; try assumption.
  intros k a I. destruct (C k a I) as [[]|H]. exact H.
Qed.

(** X1.  [listAccounts] lists no id twice; every listed pair is the id and
    the e-mail of a record that the account map holds under some key, and
    the id of every record that the map holds is listed.  So [count] is
    the number of different ids among the records of the map. *)
Theorem listAccounts_distinct (s : State) :
  NoDup (map fst (listAccounts s))
  /\ (forall i e, In (i, e) (listAccounts s) ->
        exists key account,
          In (key, account) (accounts (manager s))
          /\ id (account_at (store s) account) = i
          /\ email (account_at (store s) account) = e)
  /\ (forall key account, In (key, account) (accounts (manager s)) ->
        In (id (account_at (store s) account)) (map fst (listAccounts s)))
  /\ count s = List.length (held_ids s).
Proof.
  destruct (listAccounts_spec s) as (N & F & C).
  conj; try assumption.
  unfold count, held_ids.
  transitivity (List.length (map fst (listAccounts s)));
    [symmetry; apply length_map|].
  apply Permutation_length, NoDup_Permutation; [assumption|apply NoDup_nodup|].
  intro i. rewrite nodup_In. split.
  - intro I. apply in_map_iff in I. destruct I as ([i' e] & <- & I).
    destruct (F i' e I) as (k & a & Hin & Hi & _).
    apply in_map_iff. exists (k, a). split; assumption.
  - intro I. apply in_map_iff in I. destruct I as ([k a] & <- & I).
    now apply (C k a).
Qed.

(** ** The accounts after a sequence of registrations *)

Lemma registerAll_next rs (s : State) :
  account_next (store (snd (registerAll rs s)))
  = (account_next (store s) + List.length rs)%nat.
Proof.
  revert s. induction rs as [|r rs IH]; intro s; simpl List.length.
  - simpl. lia.
  - rewrite <- registerAll_cons, IH, register_eq. simpl. lia.
Qed.

Lemma registerAll_values rs (s : State) :
  (forall k v, In (k, v) (accounts (manager s)) -> (v < account_next (store s))%nat) ->
  forall k v, In (k, v) (accounts (manager (snd (registerAll rs s)))) ->
    (v < account_next (store s) + List.length rs)%nat.
Proof.
  revert s. induction rs as [|r rs IH]; intros s H k v I.
  - simpl in *. specialize (H k v I). lia.
  - rewrite <- registerAll_cons in I. apply IH in I.
    + rewrite register_eq in I. simpl in *. lia.
    + clear I. rewrite register_eq. simpl. intros k' v' I.
      apply Map_set_values in I. destruct I as [[_ ->]|I]; [lia|].
      apply Map_set_values in I. destruct I as [[_ ->]|I]; [lia|].
      specialize (H k' v' I). lia.
Qed.

(** Every record that the map holds after registrations was made by one
    of them. *)
Lemma registered_values rs (w : World) k v :
  In (k, v) (accounts (manager (registered rs w))) ->
  exists r, nth_error rs v = Some r
            /\ account_at (store (registered rs w)) v = record_of r.
Proof.
  intro I. unfold registered in I. apply registerAll_values in I.
  - simpl in I. destruct (nth_error rs v) as [r|] eqn:E.
    + exists r. split; [reflexivity|]. now apply registered_record.
    + apply nth_error_None in E. lia.
  - simpl. intros k' v' [].
Qed.

Lemma listed_registered rs (w : World) i :
  In i (map fst (listAccounts (registered rs w))) -> In i (map r_id rs).
Proof.
  intro I. apply in_map_iff in I. destruct I as ([i' e] & <- & I).
  destruct (listAccounts_spec (registered rs w)) as (_ & F & _).
  destruct (F i' e I) as (k & a & Hin & Hi & _).
  destruct (registered_values rs w k a Hin) as (r & Hr & Ha).
  rewrite Ha in Hi. simpl in Hi. subst i'. simpl.
  apply in_map. eapply nth_error_In. eassumption.
Qed.

Lemma registered_listed rs (w : World) r :
  no_key_collision rs -> In r rs ->
  In (r_id r) (map fst (listAccounts (registered rs w))).
Proof.
  intros NC I. apply In_nth_error in I. destruct I as [j Hj].
  destruct (writer_written (r_id r) rs 0 j r Hj (or_intror eq_refl))
    as (j0 & r0 & W & _ & Hj0 & Hw).
  pose proof (id_key_owner rs j r j0 r0 NC Hj Hj0 Hw) as E.
  pose proof (registered_lookup World (r_id r) rs w) as L. rewrite W in L.
  apply Map_get_In in L. simpl in L.
  destruct (listAccounts_spec (registered rs w)) as (_ & _ & C).
  specialize (C _ _ L).
  rewrite (registered_record World rs w j0 r0 Hj0) in C. simpl in C.
  now rewrite E in C.
Qed.

(** X2.  After registrations on a new manager, [count] is at most the
    number of different ids registered and at least one when there was a
    registration; it is that number when registrations under different
    ids share no key. *)
Theorem count_registered rs (w : World) :
  (count (registered rs w) <= List.length (distinct_ids rs))%nat
  /\ (rs <> [] -> (1 <= count (registered rs w))%nat)
  /\ (no_key_collision rs ->
        count (registered rs w) = List.length (distinct_ids rs)).
Proof.
  destruct (listAccounts_spec (registered rs w)) as (N & _ & _).
  assert (Hlen : count (registered rs w)
                 = List.length (map fst (listAccounts (registered rs w)))).
  { unfold count. symmetry. apply length_map. }
  conj.
  - rewrite Hlen. apply NoDup_incl_length; [assumption|].
    intros i I. apply nodup_In. now apply (listed_registered rs w).
  - intro Hne. destruct rs as [|r0 rs]; [contradiction|].
    destruct (writer_written (r_id r0) (r0 :: rs) 0 0 r0 eq_refl (or_intror eq_refl))
      as (j0 & r1 & W & _).
    pose proof (registered_lookup World (r_id r0) (r0 :: rs) w) as L.
    rewrite W in L.
    destruct (accounts (manager (registered (r0 :: rs) w)))
      as [|[key first] rest] eqn:E; [discriminate|].
    destruct (listAccounts_head World _ key first rest E) as [others Hl].
    unfold count. rewrite Hl. simpl. lia.
  - intro NC. rewrite Hlen.
    apply Permutation_length, NoDup_Permutation;
      [assumption|apply NoDup_nodup|].
    intro i. unfold distinct_ids. rewrite nodup_In. split.
    + apply listed_registered.
    + intro I. apply in_map_iff in I. destruct I as (r & <- & I).
      now apply registered_listed.
Qed.

(** X3.  After registrations on a new manager, [getAccount] finds nothing
    exactly when neither the text asked for nor its lower-case form is the
    id or the lower-cased e-mail of a registration; what it finds is the
    record of the last registration that wrote the text as it is, or else
    of the last one that wrote its lower-case form. *)
Theorem getAccount_registered rs (w : World) k :
  (getAccount k (registered rs w) = None
   <-> forall r, In r rs -> ~ writes r k /\ ~ writes r (toLowerCase k))
  /\ forall l, getAccount k (registered rs w) = Some l ->
       exists r,
         nth_error rs l = Some r
         /\ account_at (store (registered rs w)) l = record_of r
         /\ ((writes r k
              /\ forall l' r', (l < l')%nat -> nth_error rs l' = Some r' ->
                   ~ writes r' k)
             \/ ((forall r', In r' rs -> ~ writes r' k)
                 /\ writes r (toLowerCase k)
                 /\ forall l' r', (l < l')%nat -> nth_error rs l' = Some r' ->
                      ~ writes r' (toLowerCase k))).
Proof.
  unfold getAccount, writes. rewrite !registered_lookup. split.
  - split.
    + intros H r I.
      destruct (writer k rs 0) eqn:W; [discriminate|].
      destruct (writer_None _ _ _ W r I), (writer_None _ _ _ H r I). tauto.
    + intro H.
      destruct (writer k rs 0) eqn:W.
      { destruct (writer_Some _ _ _ _ W) as (j & r & _ & Hj & Hk & _).
        destruct (H r (nth_error_In _ _ Hj)). tauto. }
      destruct (writer (toLowerCase k) rs 0) eqn:W'; [|reflexivity].
      destruct (writer_Some _ _ _ _ W') as (j & r & _ & Hj & Hk & _).
      destruct (H r (nth_error_In _ _ Hj)). tauto.
  - intros l H.
    destruct (writer k rs 0) eqn:W.
    + injection H as ->.
      destruct (writer_Some _ _ _ _ W) as (j & r & -> & Hj & Hk & Hlast).
      exists r. simpl. conj; [assumption|now apply registered_record|].
      left. split; [tauto|]. intros l' r' Hl Hr.
      destruct (Hlast l' r' Hl Hr). tauto.
    + destruct (writer_Some _ _ _ _ H) as (j & r & -> & Hj & Hk & Hlast).
      exists r. simpl. conj; [assumption|now apply registered_record|].
      right. conj.
      * intros r' I. destruct (writer_None _ _ _ W r' I). tauto.
      * tauto.
      * intros l' r' Hl Hr. destruct (Hlast l' r' Hl Hr). tauto.
Qed.

(** ** Selecting the account *)

(** X4.  A selector that is not empty and that [getAccount] does not find
    makes [getAuthClient] fail with the error that quotes the selector as
    it was given, before anything is done: no client is made, no token is
    asked for and the state is the one before the call.  An empty selector
    counts as none. *)
Theorem getAuthClient_unknown_selector (s : State) selector :
  selector <> "" ->
  getAccount selector s = None ->
  getAuthClient (Some selector) s = (inl (AccountNotFound selector), s)
  /\ getAuthClient (Some "") s = getAuthClient None s.
Proof.
  intros Hne Hnone. split; [|reflexivity].
  apply String.eqb_neq in Hne.
  unfold Accounts.getAuthClient, resolveAccount, truthy_string, string_or.
  simpl. rewrite !Hne. simpl. unfold bind, get, throw. now rewrite Hnone.
Qed.

(** ** The client cache *)

Lemma constructions_app t1 t2 :
  constructions (t1 ++ t2) = (constructions t1 + constructions t2)%nat.
Proof. unfold constructions. now rewrite filter_app, length_app. Qed.

Lemma cachedClient_hit account (s : State) client :
  Map_get string_dec (id (account_at (store s) account)) (authClients (manager s))
  = Some client ->
  cachedClient account s = (inr client, s).
Proof. intro H. exec. now rewrite H. Qed.

Lemma cachedClient_frame account (s : State) :
  exists client s1,
    cachedClient account s = (inr client, s1)
    /\ Map_get string_dec (id (account_at (store s) account))
         (authClients (manager s1)) = Some client
    /\ accounts (manager s1) = accounts (manager s)
    /\ clientId (manager s1) = clientId (manager s)
    /\ clientSecret (manager s1) = clientSecret (manager s)
    /\ account_at (store s1) = account_at (store s)
    /\ world s1 = world s
    /\ (forall k c, Map_get string_dec k (authClients (manager s)) = Some c ->
          Map_get string_dec k (authClients (manager s1)) = Some c).
Proof.
  exec.
  destruct (Map_get string_dec (id (account_at (store s) account))
              (authClients (manager s))) as [client|] eqn:E; simpl.
  - exists client, s. conj; try reflexivity; [assumption|auto].
  - eexists _, _. conj; try reflexivity; simpl.
    + apply Map_get_set_same.
    + intros k c H. rewrite Map_get_set.
      destruct (string_dec k (id (account_at (store s) account))) as [->|];
        [congruence|assumption].
Qed.

Lemma ensureValidToken_frame client account (s : State) :
  let s2 := snd (ensureValidToken client account s) in
  manager s2 = manager s
  /\ (forall l, identity (account_at (store s2) l) = identity (account_at (store s) l))
  /\ account_next (store s2) = account_next (store s)
  /\ client_next (store s2) = client_next (store s)
  /\ constructions (trace s2) = constructions (trace s).
Proof.
  unfold identity. exec.
  destruct (needs_refresh _ _ _); simpl; [|conj; reflexivity].
  assert (Hc : forall t, constructions (t ++ [RefreshAccessToken client])
                         = constructions t).
  { intro t. rewrite constructions_app. unfold constructions. simpl. lia. }
  destruct (token_endpoint _ (world s)) as [[cause|fresh] w]; simpl.
  - conj; try reflexivity. apply Hc.
  - destruct (tokens_listener (client_at (store s) client)) as [listener|]; simpl.
    + destruct (truthy_string (access_token fresh)); simpl;
        (conj; try reflexivity; [|apply Hc]);
        intro l;
        repeat match goal with
               | |- context [Nat.eqb ?a ?b] =>
                   destruct (Nat.eqb_spec a b); subst; simpl
               end; reflexivity.
    + conj; try reflexivity; [|apply Hc].
      intro l. destruct (Nat.eqb_spec l account); subst; reflexivity.
Qed.

Lemma listAccounts_loop_ext (h h' : Store) entries seen :
  (forall l, identity (account_at h l) = identity (account_at h' l)) ->
  listAccounts_loop h entries seen = listAccounts_loop h' entries seen.
Proof.
  intro H. revert seen. induction entries as [|[key account] rest IH]; intro seen;
    simpl; [reflexivity|].
  pose proof (H account) as E. unfold identity in E. injection E as E1 E2 _.
  rewrite E1, E2, !IH. reflexivity.
Qed.

(** X6.  Whatever its outcome, [getAuthClient] leaves the account map, the
    client id and secret, and the id, e-mail and refresh token of every
    account record as they were, and it keeps every client that was in the
    cache; so [getAccount] and [listAccounts] answer after it what they
    answered before. *)
Theorem getAuthClient_preserves_registry idOrEmail (s : State) :
  let s2 := snd (getAuthClient idOrEmail s) in
  accounts (manager s2) = accounts (manager s)
  /\ clientId (manager s2) = clientId (manager s)
  /\ clientSecret (manager s2) = clientSecret (manager s)
  /\ (forall l, identity (account_at (store s2) l) = identity (account_at (store s) l))
  /\ (forall k c, Map_get string_dec k (authClients (manager s)) = Some c ->
        Map_get string_dec k (authClients (manager s2)) = Some c)
  /\ (forall k, getAccount k s2 = getAccount k s)
  /\ listAccounts s2 = listAccounts s.
Proof.
  intro s2.
  assert (H : accounts (manager s2) = accounts (manager s)
              /\ clientId (manager s2) = clientId (manager s)
              /\ clientSecret (manager s2) = clientSecret (manager s)
              /\ (forall l, identity (account_at (store s2) l)
                            = identity (account_at (store s) l))
              /\ (forall k c, Map_get string_dec k (authClients (manager s)) = Some c ->
                    Map_get string_dec k (authClients (manager s2)) = Some c)).
  { subst s2. destruct (getAuthClient idOrEmail s) as [r st] eqn:G. simpl.
    revert G. unfold Accounts.getAuthClient, bind at 1.
    pose proof (resolveAccount_state World idOrEmail s) as R.
    destruct (resolveAccount idOrEmail s) as [[e|account] s0]; simpl in R; subst s0;
      [intros [= <- <-]; conj; auto|].
    unfold bind at 1.
    destruct (cachedClient_frame account s)
      as (client & s1 & -> & _ & Ha & Hi & Hs & Hst & _ & Hc).
    unfold bind, ret.
    pose proof (ensureValidToken_frame client account s1) as (Hm & Hid & _).
    destruct (ensureValidToken client account s1) as [[e|u] s2]; simpl in *;
      intros [= <- <-]; rewrite Hm; (conj; try assumption);
      intro l; rewrite Hid, Hst; reflexivity. }
  destruct H as (Ha & Hi & Hs & Hid & Hc).
  conj; try assumption.
  - intro k. unfold getAccount. now rewrite Ha.
  - unfold listAccounts. rewrite Ha. now apply listAccounts_loop_ext.
Qed.

Lemma getAuthClient_caches idOrEmail (s : State) client account s1 :
  getAuthClient idOrEmail s = (inr (client, account), s1) ->
  Map_get string_dec (id (account_at (store s1) account)) (authClients (manager s1))
  = Some client.
Proof.
  unfold Accounts.getAuthClient, bind at 1.
  destruct (resolveAccount idOrEmail s) as [[e|account0] s0]; [discriminate|].
  unfold bind at 1.
  destruct (cachedClient_frame account0 s0)
    as (client0 & s0' & -> & Hc & _ & _ & _ & Hst & _).
  unfold bind, ret.
  pose proof (ensureValidToken_frame client0 account0 s0') as (Hm & Hid & _).
  destruct (ensureValidToken client0 account0 s0') as [[e|u] s2]; [discriminate|].
  simpl in *. intros [= <- <- <-].
  pose proof (Hid account0) as E. unfold identity in E. injection E as E _ _.
  now rewrite Hm, E, Hst.
Qed.

(** X5.  After a call of [getAuthClient] that returned a client, a call
    that resolves to a record with the same id constructs no client: it
    returns the client of the first call (with the record it resolved to),
    or fails refreshing the token.  The cache is keyed by the id alone, so
    two records that carry one id share one client. *)
Theorem getAuthClient_reuses_client idOrEmail idOrEmail' (s : State)
    client account s1 account' :
  getAuthClient idOrEmail s = (inr (client, account), s1) ->
  resolveAccount idOrEmail' s1 = (inr account', s1) ->
  id (account_at (store s1) account') = id (account_at (store s1) account) ->
  exists r s2,
    getAuthClient idOrEmail' s1 = (r, s2)
    /\ constructions (trace s2) = constructions (trace s1)
    /\ client_next (store s2) = client_next (store s1)
    /\ (r = inr (client, account')
        \/ exists cause,
             r = inl (TokenRefreshFailed (email (account_at (store s1) account')) cause)).
Proof.
  intros H1 R E. apply getAuthClient_caches in H1. rewrite <- E in H1.
  rewrite getAuthClient_stages. unfold beforeTokenCheck, bind at 1. rewrite R.
  unfold bind at 1. rewrite (cachedClient_hit account' s1 client H1).
  unfold ret.
  pose proof (ensureValidToken_frame client account' s1) as (_ & _ & _ & Hn & Ht).
  destruct (ensureValidToken_outcomes World Date_now token_endpoint client account' s1)
    as (r & s2 & Hr & Ho).
  rewrite Hr in *. simpl in *.
  destruct Ho as [->|[cause ->]]; eexists _, _; (conj; [reflexivity|assumption|assumption|]).
  - now left.
  - right. now exists cause.
Qed.

(** ** Refreshing *)

(** X7.  When the credentials are stale and the identity provider grants
    new ones, [getAuthClient] returns the client holding them and writes
    them through to the account record: [accessToken] and [expiresAt]
    become the granted access token and expiry date, or undefined when
    these are missing, empty or zero.  If the access token or the expiry
    date is missing from what was granted, the credentials are stale again
    at once (for a clock past -60000 ms), so the next call refreshes
    anew. *)
Theorem refresh_writes_through idOrEmail (s : State) client account s1 fresh w :
  beforeTokenCheck idOrEmail s = (inr (client, account), s1) ->
  stale (credentials (client_at (store s1) client))
    (account_at (store s1) account) (Date_now (world s1)) ->
  token_endpoint (credentials (client_at (store s1) client)) (world s1)
  = (inr fresh, w) ->
  exists s2,
    getAuthClient idOrEmail s = (inr (client, account), s2)
    /\ world s2 = w
    /\ credentials (client_at (store s2) client) = fresh
    /\ accessToken (account_at (store s2) account)
       = string_or_undefined (access_token fresh)
    /\ expiresAt (account_at (store s2) account)
       = number_or_undefined (expiry_date fresh)
    /\ (truthy_string (access_token fresh) = false
        \/ truthy_number (expiry_date fresh) = false ->
        forall now, (- (60000) < now)%Q ->
          needs_refresh (credentials (client_at (store s2) client))
            (account_at (store s2) account) now = true).
Proof.
  intros Hb Hs Hw. apply stale_iff in Hs.
  rewrite getAuthClient_stages, Hb.
  assert (exists s2,
            ensureValidToken client account s1 = (inr tt, s2)
            /\ world s2 = w
            /\ credentials (client_at (store s2) client) = fresh
            /\ accessToken (account_at (store s2) account)
               = string_or_undefined (access_token fresh)
            /\ expiresAt (account_at (store s2) account)
               = number_or_undefined (expiry_date fresh)) as (s2 & -> & Hw2 & Hc & Ha & He).
  { clear Hb. exec. rewrite Hs, Hw. simpl.
    destruct (tokens_listener (client_at (store s1) client)) as [listener|]; simpl.
    - destruct (truthy_string (access_token fresh)); simpl;
        (eexists; conj; [reflexivity|reflexivity|..]; simpl;
         rewrite ?Nat.eqb_refl; reflexivity).
    - eexists; conj; [reflexivity|reflexivity|..]; simpl;
        rewrite ?Nat.eqb_refl; reflexivity. }
  exists s2. conj; try assumption; [reflexivity|].
  intros Hmiss now Hnow. unfold needs_refresh, freshest_expiry.
  rewrite Hc, He.
  destruct Hmiss as [-> | Hd]; [reflexivity|].
  rewrite Hd. unfold number_or_undefined. rewrite Hd. simpl.
  apply orb_true_iff. right. apply Number_lt_iff. lra.
Qed.

(** X8.  When the credentials are stale and the identity provider refuses,
    [getAuthClient] fails with the error naming the account's e-mail, and
    the failed refresh changes nothing: the manager, the account records
    and the clients are as they were once the account was resolved and its
    client taken from the cache or made, and that client stays in the
    cache under the account's id, with the credentials it had. *)
Theorem failed_refresh_keeps_state idOrEmail (s : State) client account s1 cause w :
  beforeTokenCheck idOrEmail s = (inr (client, account), s1) ->
  stale (credentials (client_at (store s1) client))
    (account_at (store s1) account) (Date_now (world s1)) ->
  token_endpoint (credentials (client_at (store s1) client)) (world s1)
  = (inl cause, w) ->
  exists s2,
    getAuthClient idOrEmail s
    = (inl (TokenRefreshFailed (email (account_at (store s1) account)) cause), s2)
    /\ manager s2 = manager s1
    /\ store s2 = store s1
    /\ world s2 = w
    /\ Map_get string_dec (id (account_at (store s2) account))
         (authClients (manager s2)) = Some client.
Proof.
  intros Hb Hs Hw. apply stale_iff in Hs.
  rewrite getAuthClient_stages, Hb.
  assert (Hcached : Map_get string_dec (id (account_at (store s1) account))
                      (authClients (manager s1)) = Some client).
  { revert Hb. unfold beforeTokenCheck, bind at 1.
    pose proof (resolveAccount_state World idOrEmail s) as R.
    destruct (resolveAccount idOrEmail s) as [[e|account0] s0]; [discriminate|].
    simpl in R. subst s0.
    destruct (cachedClient_frame account0 s)
      as (client0 & s0' & Hc0 & Hc & _ & _ & _ & Hst & _).
    unfold bind, ret. rewrite Hc0. intros [= <- <- <-]. now rewrite Hst. }
  assert (exists s2,
            ensureValidToken client account s1
            = (inl (TokenRefreshFailed (email (account_at (store s1) account)) cause), s2)
            /\ manager s2 = manager s1 /\ store s2 = store s1 /\ world s2 = w)
    as (s2 & -> & Hm & Hst & Hw2).
  { clear Hb Hcached. exec. rewrite Hs, Hw. simpl.
    eexists. conj; reflexivity. }
  exists s2. conj; try assumption; [reflexivity|].
  now rewrite Hm, Hst.
Qed.

(** ** Registering *)

Lemma listed_count (s : State) i :
  In i (map fst (listAccounts s)) -> (1 <= count s)%nat.
Proof.
  unfold count. destruct (listAccounts s); simpl; [intros []|lia].
Qed.

(** X9.  [registerAccount] always succeeds and makes one new record, with
    the given id, e-mail and tokens and no expiry, which is found under
    the id and under the lower-cased e-mail; the id is listed.  Every
    other key of the account map and of the client cache, every other
    record, the clients, the clock and the trace are as before. *)
Theorem registerAccount_frame i e t a (s : State) :
  let s' := snd (registerAccount i e t a s) in
  let new := account_next (store s) in
  registerAccount i e t a s = (inr tt, s')
  /\ getAccount i s' = Some new
  /\ getAccount (toLowerCase e) s' = Some new
  /\ account_at (store s') new = mkAccount i e t a None
  /\ In i (map fst (listAccounts s'))
  /\ (1 <= count s')%nat
  /\ (forall k, k <> i -> k <> toLowerCase e ->
        Map_get string_dec k (accounts (manager s'))
        = Map_get string_dec k (accounts (manager s))
        /\ Map_get string_dec k (authClients (manager s'))
           = Map_get string_dec k (authClients (manager s)))
  /\ (forall l, l <> new -> account_at (store s') l = account_at (store s) l)
  /\ client_at (store s') = client_at (store s)
  /\ world s' = world s
  /\ trace s' = trace s.
Proof.
  intros s' new. subst s' new.
  rewrite registerAccount_register, register_eq. simpl.
  set (m := Map_set string_dec (toLowerCase e) (account_next (store s))
              (Map_set string_dec i (account_next (store s)) (accounts (manager s)))).
  assert (Hid : Map_get string_dec i m = Some (account_next (store s))).
  { unfold m. rewrite Map_get_set.
    destruct (string_dec i (toLowerCase e)); [reflexivity|apply Map_get_set_same]. }
  assert (Hlisted : In i (map fst (listAccounts
            (mkState
               (mkManager m
                  (Map_delete string_dec (toLowerCase e)
                     (Map_delete string_dec i (authClients (manager s))))
                  (clientId (manager s)) (clientSecret (manager s)))
               (mkStore
                  (fun l => if Nat.eqb l (account_next (store s))
                            then record_of (mkRegistration i e t a)
                            else account_at (store s) l)
                  (S (account_next (store s)))
                  (client_at (store s)) (client_next (store s)))
               (world s) (trace s))))).
  { match goal with |- In _ (map fst (listAccounts ?st)) =>
      destruct (listAccounts_spec st) as (_ & _ & C) end.
    apply Map_get_In in Hid. specialize (C _ _ Hid). simpl in C.
    now rewrite Nat.eqb_refl in C. }
  conj; try reflexivity.
  - unfold getAccount. simpl. fold m. now rewrite Hid.
  - unfold getAccount. simpl. fold m. unfold m. now rewrite Map_get_set_same.
  - now rewrite Nat.eqb_refl.
  - exact Hlisted.
  - exact (listed_count _ i Hlisted).
  - intros k H1 H2. split.
    + fold m. unfold m. rewrite !Map_get_set.
      destruct (string_dec k (toLowerCase e)); [contradiction|].
      destruct (string_dec k i); [contradiction|reflexivity].
    + rewrite !Map_get_delete.
      destruct (string_dec k (toLowerCase e)); [contradiction|].
      destruct (string_dec k i); [contradiction|reflexivity].
  - intros l Hl. destruct (Nat.eqb_spec l (account_next (store s))); [contradiction|reflexivity].
Qed.

End ManagerExtras.

(** ** Concrete runs *)

(** X2 at work: three registrations under two ids that share no key. *)
Lemma count_registered_witness :
  no_key_collision three_registrations
  /\ count (registered three_registrations 1000000%Z) = 2%nat.
Proof.
  assert (NC : no_key_collision three_registrations).
  { intros r1 r2 H1 H2 Hne.
    destruct H1 as [<-|[<-|[<-|[]]]]; destruct H2 as [<-|[<-|[<-|[]]]];
      try (exfalso; apply Hne; reflexivity); split; discriminate. }
  split; [exact NC|].
  exact (proj2 (proj2 (count_registered Z three_registrations 1000000%Z)) NC).
Defined.

(** X4 at work: nobody is called "nobody". *)
Lemma getAuthClient_unknown_selector_witness :
  getAuthClient sample_now granting_endpoint (Some "nobody") only_main
  = (inl (AccountNotFound "nobody"), only_main).
Proof.
  refine (proj1 (getAuthClient_unknown_selector Z sample_now granting_endpoint
                   only_main "nobody" _ _)).
  - discriminate.
  - vm_compute. reflexivity.
Defined.

(** X5 at work: "main" is used a second time, under its e-mail. *)
Lemma getAuthClient_reuses_client_witness :
  exists r s2,
    getAuthClient sample_now granting_endpoint (Some "MAIN@gmail.com") after_first_use
    = (r, s2)
    /\ constructions (trace s2) = constructions (trace after_first_use)
    /\ client_next (store s2) = client_next (store after_first_use)
    /\ (r = inr (0%nat, 0%nat)
        \/ exists cause,
             r = inl (TokenRefreshFailed
                        (email (account_at (store after_first_use) 0)) cause)).
Proof.
  refine (getAuthClient_reuses_client Z sample_now granting_endpoint
            (Some "main") (Some "MAIN@gmail.com") only_main 0%nat 0%nat
            after_first_use 0%nat _ _ _).
  - vm_compute. reflexivity.
  - vm_compute. reflexivity.
  - reflexivity.
Defined.

(** X7 at work: the first use of "main" writes the granted token and its
    expiry through to the record. *)
Lemma refresh_writes_through_witness :
  exists s2,
    getAuthClient sample_now granting_endpoint (Some "main") only_main
    = (inr (0%nat, 0%nat), s2)
    /\ accessToken (account_at (store s2) 0) = Some "ya29.fresh"
    /\ expiresAt (account_at (store s2) 0) = Some (inject_Z 4600000).
Proof.
  destruct (refresh_writes_through Z sample_now granting_endpoint (Some "main")
              only_main 0%nat 0%nat (snd (beforeTokenCheck (Some "main") only_main))
              granted_to_main 1000000%Z)
    as (s2 & Hr & _ & _ & Ha & He & _).
  - vm_compute. reflexivity.
  - left. vm_compute. reflexivity.
  - vm_compute. reflexivity.
  - exists s2. split; [exact Hr|]. split; [exact Ha|exact He].
Defined.

(** X8 at work: the identity provider rejects the refresh token of
    "main"; the client made for it stays in the cache. *)
Lemma failed_refresh_keeps_state_witness :
  exists s2,
    getAuthClient sample_now revoking_endpoint (Some "main") only_main
    = (inl (TokenRefreshFailed "Main@Gmail.com" (Error "invalid_grant")), s2)
    /\ Map_get string_dec "main" (authClients (manager s2)) = Some 0%nat.
Proof.
  destruct (failed_refresh_keeps_state Z sample_now revoking_endpoint (Some "main")
              only_main 0%nat 0%nat (snd (beforeTokenCheck (Some "main") only_main))
              (Error "invalid_grant") 1000000%Z)
    as (s2 & Hr & Hm & Hs & _ & Hc).
  - vm_compute. reflexivity.
  - left. vm_compute. reflexivity.
  - vm_compute. reflexivity.
  - exists s2. split; [exact Hr|].
    rewrite Hs in Hc. exact Hc.
Defined.

(** A registration that takes the keys of two accounts lowers the count. *)
Example count_can_drop :
  count (registered (firstn 2 taking_over) 1000000%Z) = 2%nat
  /\ count (registered taking_over 1000000%Z) = 1%nat.
Proof. split; vm_compute; reflexivity. Qed.

End AccountsExtras.

Module SearchConsoleExtras.
Import JSFacts SearchConsole SearchConsoleSpec ServiceNotions Tools SearchConsoleProofs.

Ltac conj := repeat match goal with |- _ /\ _ => split end.

(** ** Period comparison: order, matching and totals *)

(** X10.  The rows of a comparison are in descending order of the change
    in clicks, and rows with the same change keep the order of the
    current-period rows they come from. *)
Theorem compareRows_sorted currentStart currentEnd previousStart previousEnd
    currentRows previousRows :
  let result := compareRows currentStart currentEnd previousStart previousEnd
                  currentRows previousRows in
  let computed := map (compareRow (previousLookupOf previousRows)) currentRows in
  StronglySorted by_clicks_gain (comparison result)
  /\ forall v, with_clicks_change v (comparison result) = with_clicks_change v computed.
Proof.
  intros result computed. split.
  - apply (Array_sort_sorted _ byClicksChange (fun c => ch_clicks (change c))).
    reflexivity.
  - intro v.
    apply (Array_sort_stable _ byClicksChange (fun c => ch_clicks (change c))).
    reflexivity.
Qed.

Lemma Map_of_last (K V : Type) (K_dec : forall a b : K, {a = b} + {a <> b})
    (es1 es2 : list (K * V)) k v :
  ~ In k (map fst es2) ->
  Map_get K_dec k (Map_of K_dec (es1 ++ (k, v) :: es2)) = Some v.
Proof.
  induction es2 as [|[k0 v0] es2 IH] using rev_ind; intro H.
  - rewrite Map_of_snoc. destruct (K_dec k k); congruence.
  - rewrite app_comm_cons, app_assoc, Map_of_snoc.
    rewrite map_app, in_app_iff in H. simpl in H.
    destruct (K_dec k k0) as [->|Hne]; [tauto|].
    apply IH. tauto.
Qed.

Lemma matched_lookup previousRows currentRow p :
  last_with_key (lookup_key currentRow) previousRows p ->
  Map_get key_dec (Some (string_or (joined_key currentRow) ""))
    (previousLookupOf previousRows) = Some p.
Proof.
  intros (before & after & -> & Hk & Hlast).
  unfold previousLookupOf. rewrite map_app. simpl. rewrite Hk.
  apply Map_of_last. rewrite map_map. simpl. intro I.
  apply in_map_iff in I. destruct I as (q & E & Hq). exact (Hlast q Hq E).
Qed.


Lemma number_or_zero_eq x : (number_or_zero (Some x) == x)%Q.
Proof.
  unfold number_or_zero, truthy_number.
  destruct (Qeq_bool x 0%Q) eqn:E; simpl; [|reflexivity].
  apply Qeq_bool_iff in E. now rewrite E.
Qed.

Lemma totalsOf_fold rows a b :
  let t := fold_left
    (fun acc row =>
       ((number_or_zero (Some (fst acc)) + number_or_zero (clicks row))%Q,
        (number_or_zero (Some (snd acc)) + number_or_zero (impressions row))%Q))
    rows (a, b) in
  (fst t == a + total clicks rows)%Q /\ (snd t == b + total impressions rows)%Q.
Proof.
  revert a b. induction rows as [|row rows IH]; intros a b.
  - simpl. split; lra.
  - pose proof (IH (number_or_zero (Some a) + number_or_zero (clicks row))%Q
                   (number_or_zero (Some b) + number_or_zero (impressions row))%Q)
      as [H1 H2].
    cbn [fold_left fst snd].
    change (total clicks (row :: rows))
      with (number_or_zero (clicks row) + total clicks rows)%Q.
    change (total impressions (row :: rows))
      with (number_or_zero (impressions row) + total impressions rows)%Q.
    split.
    + rewrite H1, (number_or_zero_eq a). ring.
    + rewrite H2, (number_or_zero_eq b). ring.
Qed.

Lemma totalsOf_total rows :
  (fst (totalsOf rows) == total clicks rows)%Q
  /\ (snd (totalsOf rows) == total impressions rows)%Q.
Proof.
  pose proof (totalsOf_fold rows 0%Q 0%Q) as [H1 H2]. unfold totalsOf.
  cbv zeta in H1, H2.
  split; (etransitivity; [eassumption|ring]).
Qed.

Lemma sum_over_perm f l l' :
  Permutation l l' -> (sum_over f l == sum_over f l')%Q.
Proof.
  induction 1 as [|x l l' _ IH|x y l|l l' l'' _ IH1 _ IH2].
  - reflexivity.
  - change (f x + sum_over f l == f x + sum_over f l')%Q. lra.
  - change (f y + (f x + sum_over f l) == f x + (f y + sum_over f l))%Q. lra.
  - lra.
Qed.

Lemma sum_over_current lookup rows :
  (sum_over (fun c => m_clicks (current c)) (map (compareRow lookup) rows)
   == total clicks rows)%Q
  /\ (sum_over (fun c => m_impressions (current c)) (map (compareRow lookup) rows)
      == total impressions rows)%Q.
Proof.
  induction rows as [|row rows [IH1 IH2]]; [split; reflexivity|].
  split.
  - change (number_or_zero (clicks row)
            + sum_over (fun c => m_clicks (current c)) (map (compareRow lookup) rows)
            == number_or_zero (clicks row) + total clicks rows)%Q.
    lra.
  - change (number_or_zero (impressions row)
            + sum_over (fun c => m_impressions (current c))
                (map (compareRow lookup) rows)
            == number_or_zero (impressions row) + total impressions rows)%Q.
    lra.
Qed.

(** X12.  The summary of a comparison holds, for each period, its dates
    and the sums of the clicks and of the impressions of its rows, a
    missing value counting for zero; the changes are the differences of
    these sums, and the percentage is null when the previous period has no
    clicks.  The clicks and impressions that the rows of the comparison
    show for the current period add up to the summary's. *)
Theorem compareRows_summary currentStart currentEnd previousStart previousEnd
    currentRows previousRows :
  let result := compareRows currentStart currentEnd previousStart previousEnd
                  currentRows previousRows in
  let now_ := currentPeriod (summary result) in
  let before := previousPeriod (summary result) in
  let diff := summary_change (summary result) in
  (p_start now_, p_end now_, p_start before, p_end before)
  = (currentStart, currentEnd, previousStart, previousEnd)
  /\ (p_clicks now_ == total clicks currentRows)%Q
  /\ (p_impressions now_ == total impressions currentRows)%Q
  /\ (p_clicks before == total clicks previousRows)%Q
  /\ (p_impressions before == total impressions previousRows)%Q
  /\ (sc_clicks diff == total clicks currentRows - total clicks previousRows)%Q
  /\ (sc_impressions diff
      == total impressions currentRows - total impressions previousRows)%Q
  /\ sc_clicksPercent diff = percentChange (p_clicks now_) (p_clicks before)
  /\ ((total clicks previousRows <= 0)%Q -> sc_clicksPercent diff = None)
  /\ (sum_over (fun c => m_clicks (current c)) (comparison result)
      == p_clicks now_)%Q
  /\ (sum_over (fun c => m_impressions (current c)) (comparison result)
      == p_impressions now_)%Q.
Proof.
  intros result now_ before diff.
  destruct (totalsOf_total currentRows) as [C1 C2].
  destruct (totalsOf_total previousRows) as [P1 P2].
  assert (Hc : (p_clicks now_ == total clicks currentRows)%Q).
  { change (p_clicks now_) with (number_or_zero (Some (fst (totalsOf currentRows)))).
    now rewrite number_or_zero_eq. }
  assert (Hi : (p_impressions now_ == total impressions currentRows)%Q).
  { change (p_impressions now_)
      with (number_or_zero (Some (snd (totalsOf currentRows)))).
    now rewrite number_or_zero_eq. }
  assert (Hpc : (p_clicks before == total clicks previousRows)%Q).
  { change (p_clicks before) with (number_or_zero (Some (fst (totalsOf previousRows)))).
    now rewrite number_or_zero_eq. }
  assert (Hpi : (p_impressions before == total impressions previousRows)%Q).
  { change (p_impressions before)
      with (number_or_zero (Some (snd (totalsOf previousRows)))).
    now rewrite number_or_zero_eq. }
  destruct (sum_over_current (previousLookupOf previousRows) currentRows) as [S1 S2].
  conj; try assumption; try reflexivity.
  - change (sc_clicks diff) with (p_clicks now_ - p_clicks before)%Q.
    now rewrite Hc, Hpc.
  - change (sc_impressions diff) with (p_impressions now_ - p_impressions before)%Q.
    now rewrite Hi, Hpi.
  - intro H. change (sc_clicksPercent diff)
      with (percentChange (p_clicks now_) (p_clicks before)).
    apply percentChange_null. now rewrite Hpc.
  - rewrite Hc, <- S1. apply sum_over_perm. apply Array_sort_perm.
  - rewrite Hi, <- S2. apply sum_over_perm. apply Array_sort_perm.
Qed.

(** ** Rounding to a fixed number of decimals *)

Lemma toFixed_digits_nonneg digits x : (0 <= x)%Q -> (0 <= toFixed_digits digits x)%Z.
Proof.
  intro H. unfold toFixed_digits.
  change 0%Z with (Qfloor 0%Q). apply Qfloor_resp_le.
  pose proof (pow10_pos digits). nra.
Qed.

Lemma Number_toFixed_nonneg digits x :
  (0 <= x)%Q -> (0 <= Number_toFixed digits x)%Q.
Proof.
  intro H. unfold Number_toFixed.
  destruct (Number_le toFixed_threshold (Qabs x)); [assumption|].
  assert (Number_lt x 0%Q = false) as -> by now apply Number_lt_false_iff.
  pose proof (toFixed_digits_nonneg digits (Qabs x) (Qabs_nonneg x)) as Hn.
  pose proof (pow10_pos digits) as HP.
  apply Qle_shift_div_l; [assumption|].
  rewrite Qmult_0_l. change 0%Q with (inject_Z 0). now rewrite <- Zle_Qle.
Qed.

Lemma Number_toFixed_nonpos digits x :
  (x <= 0)%Q -> (Number_toFixed digits x <= 0)%Q.
Proof.
  intro H. unfold Number_toFixed.
  destruct (Number_le toFixed_threshold (Qabs x)); [assumption|].
  pose proof (toFixed_digits_nonneg digits (Qabs x) (Qabs_nonneg x)) as Hn.
  pose proof (pow10_pos digits) as HP.
  assert (Hq : (0 <= inject_Z (toFixed_digits digits (Qabs x))
                     / inject_Z (10 ^ Z.of_nat digits))%Q).
  { apply Qle_shift_div_l; [assumption|].
    rewrite Qmult_0_l. change 0%Q with (inject_Z 0). now rewrite <- Zle_Qle. }
  destruct (Number_lt x 0%Q) eqn:E; [lra|].
  apply Number_lt_false_iff in E.
  assert (Hz : (x == 0)%Q) by lra.
  assert (Ha : (Qabs x == 0)%Q) by (rewrite Hz; reflexivity).
  unfold toFixed_digits. rewrite Ha, Qmult_0_l.
  change (Qfloor (0 + (1 # 2))%Q) with 0%Z.
  unfold Qdiv. rewrite Qmult_0_l. lra.
Qed.

(** A whole number that is not positive and not above [x] is not above
    the rounded [x] either. *)
Lemma Number_toFixed_lower digits x z :
  (z <= 0)%Z -> (inject_Z z <= x)%Q -> (inject_Z z <= Number_toFixed digits x)%Q.
Proof.
  intros Hz Hx. unfold Number_toFixed.
  destruct (Number_le toFixed_threshold (Qabs x)); [assumption|].
  pose proof (pow10_pos digits) as HP.
  destruct (Number_lt x 0%Q) eqn:E.
  - apply Number_lt_iff in E.
    assert (Ha : (Qabs x == - x)%Q) by (apply Qabs_neg; lra).
    set (n := toFixed_digits digits (Qabs x)).
    assert (Hn : (n <= - z * 10 ^ Z.of_nat digits)%Z).
    { assert (Hlt : (inject_Z n < inject_Z (- z * 10 ^ Z.of_nat digits + 1))%Q).
      { unfold n, toFixed_digits.
        pose proof (Qfloor_le (Qabs x * inject_Z (10 ^ Z.of_nat digits) + (1 # 2))%Q) as F.
        rewrite inject_Z_plus, inject_Z_mult, inject_Z_opp.
        change (inject_Z 1) with 1%Q.
        assert (Hm : (Qabs x * inject_Z (10 ^ Z.of_nat digits)
                      <= - inject_Z z * inject_Z (10 ^ Z.of_nat digits))%Q).
        { apply Qmult_le_compat_r; lra. }
        lra. }
      rewrite <- Zlt_Qlt in Hlt. lia. }
    rewrite Zle_Qle, inject_Z_mult, inject_Z_opp in Hn.
    assert (Hq : (inject_Z n / inject_Z (10 ^ Z.of_nat digits) <= - inject_Z z)%Q).
    { apply Qle_shift_div_r; assumption. }
    lra.
  - assert (inject_Z z <= 0)%Q
      by (change 0%Q with (inject_Z 0); now rewrite <- Zle_Qle).
    pose proof (toFixed_digits_nonneg digits (Qabs x) (Qabs_nonneg x)) as Hn.
    assert (0 <= inject_Z (toFixed_digits digits (Qabs x))
                 / inject_Z (10 ^ Z.of_nat digits))%Q.
    { apply Qle_shift_div_l; [assumption|].
      rewrite Qmult_0_l. change 0%Q with (inject_Z 0). now rewrite <- Zle_Qle. }
    lra.
Qed.


(** ** Quick wins: the estimate and its summary *)

Lemma potentialClicks_bounds row :
  (0 <= number_or_zero (impressions row))%Q ->
  (0 <= potentialClicks (toQuickWin row))%Q
  /\ (potentialClicks (toQuickWin row)
      <= number_or_zero (impressions row) * (8 # 100) + (1 # 2))%Q.
Proof.
  intro Hi. unfold toQuickWin. simpl. unfold Math_round.
  set (imp := number_or_zero (impressions row)) in *.
  set (target := targetCtr (number_or_zero (position row))).
  assert (Ht : (0 < target)%Q /\ (target <= 8)%Q).
  { unfold target, targetCtr.
    destruct (Number_le _ 5%Q); [split; lra|].
    destruct (Number_le _ 10%Q); split; lra. }
  destruct Ht as [Ht1 Ht2].
  assert (Hx : (0 <= imp * target / 100)%Q /\ (imp * target / 100 <= imp * (8 # 100))%Q).
  { unfold Qdiv. change (/ 100)%Q with (1 # 100)%Q. split; nra. }
  destruct Hx as [Hx1 Hx2].
  pose proof (Qfloor_le (imp * target / 100 + (1 # 2))%Q) as F.
  split; [|lra].
  change 0%Q with (inject_Z 0). rewrite <- Zle_Qle.
  change 0%Z with (Qfloor 0%Q). apply Qfloor_resp_le. lra.
Qed.

Lemma additionalClicks_nonneg row : (0 <= additionalClicks (toQuickWin row))%Q.
Proof.
  unfold toQuickWin. simpl.
  destruct (Math_max_zero
              (Math_round (number_or_zero (impressions row)
                           * targetCtr (number_or_zero (position row)) / 100)
               - number_or_zero (clicks row))%Q) as [[_ E]|[H E]]; rewrite E; lra.
Qed.

Lemma isHigh_iff row :
  isHigh (toQuickWin row) = true <-> (100 <= additionalClicks (toQuickWin row))%Q.
Proof.
  unfold isHigh.
  change (opportunity (toQuickWin row))
    with (opportunityOf (additionalClicks (toQuickWin row))).
  unfold opportunityOf, Number_ge.
  destruct (Number_le 100%Q (additionalClicks (toQuickWin row))) eqn:E.
  - apply Number_le_iff in E. tauto.
  - apply Number_le_false_iff in E.
    destruct (Number_le 30%Q _); split; (discriminate || lra).
Qed.


Lemma firstn_In (A : Type) n (l : list A) x : In x (firstn n l) -> In x l.
Proof.
  intro H. rewrite <- (firstn_skipn n l). apply in_or_app. now left.
Qed.

Lemma StronglySorted_firstn (A : Type) (R : A -> A -> Prop) n l :
  StronglySorted R l -> StronglySorted R (firstn n l).
Proof.
  intro H. revert n. induction H as [|x l Hl IH Hx]; intro n.
  - rewrite firstn_nil. constructor.
  - destruct n as [|n]; simpl; constructor; [apply IH|].
    rewrite Forall_forall in Hx |- *. intros y Hy. apply Hx.
    now apply (firstn_In _ n).
Qed.

Lemma high_prefix l :
  StronglySorted descending l ->
  (forall qw, In qw l -> (isHigh qw = true <-> (100 <= additionalClicks qw)%Q)) ->
  filter isHigh l = firstn (List.length (filter isHigh l)) l
  /\ forall qw, In qw (skipn (List.length (filter isHigh l)) l) -> isHigh qw = false.
Proof.
  induction 1 as [|x l Hl IH Hx]; intro Hv; [split; [reflexivity|intros qw []]|].
  destruct IH as [IH1 IH2]; [intros qw I; apply Hv; now right|].
  simpl. destruct (isHigh x) eqn:E; simpl.
  - split; [now rewrite <- IH1|assumption].
  - assert (Hnone : forall y, In y l -> isHigh y = false).
    { intros y Hy. destruct (isHigh y) eqn:Ey; [|reflexivity].
      apply (Hv y (or_intror Hy)) in Ey.
      rewrite Forall_forall in Hx. specialize (Hx y Hy). unfold descending in Hx.
      assert (Hhigh : isHigh x = true)
        by (apply (Hv x (or_introl eq_refl)); lra).
      congruence. }
    assert (Hf : filter isHigh l = []).
    { clear -Hnone. induction l as [|y l IH]; [reflexivity|].
      simpl. rewrite (Hnone y (or_introl eq_refl)).
      apply IH. intros z Hz. apply Hnone. now right. }
    rewrite Hf. simpl. split; [reflexivity|].
    intros qw [<-|I]; [assumption|now apply Hnone].
Qed.

Lemma high_total l a :
  (forall qw, In qw l ->
     (isHigh qw = true -> (100 <= additionalClicks qw)%Q)
     /\ (0 <= additionalClicks qw)%Q) ->
  (100 * inject_Z (Z.of_nat (List.length (filter isHigh l))) + a
   <= fold_left (fun sum qw => (sum + additionalClicks qw)%Q) l a)%Q.
Proof.
  revert a. induction l as [|x l IH]; intros a Hv.
  - change (100 * 0 + a <= a)%Q. lra.
  - specialize (IH (a + additionalClicks x)%Q
                  (fun qw I => Hv qw (or_intror I))).
    destruct (Hv x (or_introl eq_refl)) as [Hh H0].
    cbn [fold_left filter]. destruct (isHigh x) eqn:E.
    + specialize (Hh eq_refl).
      cbn [List.length]. rewrite Nat2Z.inj_succ. unfold Z.succ.
      rewrite inject_Z_plus. change (inject_Z 1) with 1%Q. lra.
    + lra.
Qed.

Lemma quickWinsOf_sound th rows qw :
  In qw (quickWinsOf th rows) -> exists row, In row rows /\ qw = toQuickWin row.
Proof.
  unfold quickWinsOf. intro H.
  apply Array_slice0_In, Array_sort_In, in_map_iff in H.
  destruct H as (row & <- & Hrow). apply filter_In in Hrow.
  exists row. tauto.
Qed.

(** X15.  In the summary that the quick-wins tool reports, the High
    opportunities are the first [highOpportunities] quick wins of the
    list and no other; the potential additional clicks are not negative
    and at least 100 for each High opportunity; and there are no more
    quick wins than rows. *)
Theorem summaryOf_quickWins th rows :
  let quickWins := quickWinsOf th rows in
  let report := summaryOf quickWins in
  filter isHigh quickWins = firstn (highOpportunities report) quickWins
  /\ (forall qw, In qw (skipn (highOpportunities report) quickWins) ->
        opportunity qw <> High)
  /\ (highOpportunities report <= totalQuickWins report)%nat
  /\ (totalQuickWins report <= List.length rows)%nat
  /\ (100 * inject_Z (Z.of_nat (highOpportunities report))
      <= potentialAdditionalClicks report)%Q
  /\ (0 <= potentialAdditionalClicks report)%Q.
Proof.
  intros quickWins report.
  assert (Hv : forall qw, In qw quickWins ->
                 (isHigh qw = true <-> (100 <= additionalClicks qw)%Q)
                 /\ (0 <= additionalClicks qw)%Q).
  { intros qw I. destruct (quickWinsOf_sound th rows qw I) as (row & _ & ->).
    split; [apply isHigh_iff|apply additionalClicks_nonneg]. }
  assert (Hs : StronglySorted descending quickWins).
  { unfold quickWins, quickWinsOf, Array_slice0. apply StronglySorted_firstn.
    apply (Array_sort_sorted _ byAdditionalClicks additionalClicks). reflexivity. }
  destruct (high_prefix quickWins Hs (fun qw I => proj1 (Hv qw I))) as [P1 P2].
  pose proof (high_total quickWins 0%Q
                (fun qw I => conj (proj1 (proj1 (Hv qw I))) (proj2 (Hv qw I)))) as Ht.
  assert (Hn : (0 <= inject_Z (Z.of_nat (List.length (filter isHigh quickWins))))%Q).
  { change 0%Q with (inject_Z 0). rewrite <- Zle_Qle. lia. }
  conj.
  - exact P1.
  - intros qw I E. specialize (P2 qw I). unfold isHigh in P2. rewrite E in P2.
    discriminate.
  - simpl. apply List.filter_length_le.
  - simpl. unfold quickWins. rewrite quickWinsOf_length.
    pose proof (slice_length_le (limit th)
                  (List.length (filter (isQuickWin th) rows))).
    pose proof (List.filter_length_le (isQuickWin th) rows). lia.
  - simpl. lra.
  - simpl. lra.
Qed.

(** ** Normalizing a site URL *)

Lemma prefix_append p s : String.prefix p (p ++ s) = true.
Proof.
  induction p as [|c p IH]; simpl; [now destruct s|].
  destruct (ascii_dec c c); [assumption|contradiction].
Qed.

Section Normalizing.

Variable URL_parse : string -> option URL.

Local Notation "'normalizeUrl'" := (SearchConsole.normalizeUrl URL_parse).

(** X16.  Normalizing a site URL twice is normalizing it once, given that
    the URL parser reads a text that starts with sc-domain:, when it
    accepts it, with protocol sc-domain:; and what normalizing answers is
    either its argument or a text that starts with sc-domain:. *)
Theorem normalizeUrl_idempotent url :
  (forall url parsed, String.prefix "sc-domain:" url = true ->
     URL_parse url = Some parsed -> protocol parsed = "sc-domain:") ->
  normalizeUrl (normalizeUrl url) = normalizeUrl url
  /\ (normalizeUrl url = url
      \/ String.prefix "sc-domain:" (normalizeUrl url) = true).
Proof.
  intro Hscheme.
  assert (Hsc : forall u, String.prefix "sc-domain:" u = true -> normalizeUrl u = u).
  { intros u Hp. destruct (URL_parse u) as [parsed|] eqn:E.
    - apply (normalizeUrl_other URL_parse u parsed E);
        rewrite (Hscheme u parsed Hp E); discriminate.
    - now apply normalizeUrl_unparsable. }
  assert (Hcases : normalizeUrl url = url
                   \/ exists host, normalizeUrl url = "sc-domain:" ++ host).
  { unfold SearchConsole.normalizeUrl.
    destruct (URL_parse url) as [parsed|]; [|now left].
    destruct (String.eqb (protocol parsed) "http:"
              || String.eqb (protocol parsed) "https:")%bool; [|now left].
    right. now exists (hostname parsed). }
  destruct Hcases as [E|[host E]].
  - split; [now rewrite !E|now left].
  - assert (Hp : String.prefix "sc-domain:" (normalizeUrl url) = true)
      by (rewrite E; apply prefix_append).
    split; [now apply Hsc|now right].
Qed.

End Normalizing.

(** ** What quick-win detection asks of the API *)

Section Asking.

Variable World : Type.
Variable searchanalytics :
  string -> SearchAnalyticsRequest -> World -> (thrown + SearchAnalyticsData) * World.
Variable URL_parse : string -> option URL.

Local Notation "'State'" := (SearchConsole.State World).
Local Notation "'normalizeUrl'" := (SearchConsole.normalizeUrl URL_parse).
Local Notation "'searchAnalytics'" :=
  (SearchConsole.searchAnalytics searchanalytics URL_parse).
Local Notation "'detectQuickWins'" :=
  (SearchConsole.detectQuickWins searchanalytics URL_parse).

Lemma searchAnalytics_requests siteUrl requestBody (s : State) :
  let s' := snd (searchAnalytics siteUrl requestBody s) in
  requests s' = (requests s ++ [searchanalytics_query siteUrl requestBody])%list
  \/ requests s'
     = (requests s ++ [searchanalytics_query siteUrl requestBody;
                       searchanalytics_query (normalizeUrl siteUrl) requestBody])%list.
Proof.
  unfold SearchConsole.searchAnalytics. rewrite handlePermissionError_eq.
  pose proof (call_searchanalytics_requests World searchanalytics siteUrl requestBody s)
    as L1.
  destruct (call_searchanalytics searchanalytics siteUrl requestBody s)
    as [[err|data] s1]; simpl in L1; [|now left].
  destruct (isPermissionError err); [|now left].
  right. simpl.
  rewrite (call_searchanalytics_requests World searchanalytics
             (normalizeUrl siteUrl) requestBody s1), L1, <- app_assoc.
  reflexivity.
Qed.

(** X20.  [detectQuickWins] asks the API for the query and page
    dimensions of the period, 25000 rows at most, once or -- after a
    permission error -- a second time with the normalized URL, and nothing
    else: the thresholds play no part in what is asked or in the state
    left, and the call fails exactly when this query fails, with its
    error.  When the answer has no rows there are no quick wins. *)
Theorem detectQuickWins_requests siteUrl startDate endDate th (s : State) :
  let asked := mkRequest startDate endDate ["query"; "page"] 25000%Q "all" in
  let s' := snd (detectQuickWins siteUrl startDate endDate th s) in
  (requests s' = (requests s ++ [searchanalytics_query siteUrl asked])%list
   \/ requests s'
      = (requests s ++ [searchanalytics_query siteUrl asked;
                        searchanalytics_query (normalizeUrl siteUrl) asked])%list)
  /\ s' = snd (searchAnalytics siteUrl asked s)
  /\ (forall th', snd (detectQuickWins siteUrl startDate endDate th' s) = s')
  /\ (forall e, fst (detectQuickWins siteUrl startDate endDate th s) = inl e
                <-> fst (searchAnalytics siteUrl asked s) = inl e)
  /\ (fst (searchAnalytics siteUrl asked s) = inr (mkData None) ->
      fst (detectQuickWins siteUrl startDate endDate th s) = inr []).
Proof.
  intros asked s'.
  assert (Hs : forall th0, snd (detectQuickWins siteUrl startDate endDate th0 s)
                           = snd (searchAnalytics siteUrl asked s)).
  { intro th0. rewrite detectQuickWins_eq. fold asked.
    now destruct (searchAnalytics siteUrl asked s) as [[err|data] s1]. }
  conj.
  - unfold s'. rewrite Hs. apply searchAnalytics_requests.
  - apply Hs.
  - intro th'. unfold s'. now rewrite !Hs.
  - intro e. rewrite detectQuickWins_eq. fold asked.
    destruct (searchAnalytics siteUrl asked s) as [[err|data] s1]; simpl;
      split; congruence.
  - rewrite detectQuickWins_eq. fold asked.
    destruct (searchAnalytics siteUrl asked s) as [[err|data] s1]; simpl;
      [discriminate|].
    intros [= ->]. unfold quickWinsOf, rows_or_empty, Array_slice0. simpl.
    now rewrite firstn_nil.
Qed.

End Asking.

(** ** Concrete runs *)




(** X16 at work, with the sample parser. *)
Lemma normalizeUrl_idempotent_witness :
  SearchConsole.normalizeUrl simple_URL_parse
    (SearchConsole.normalizeUrl simple_URL_parse "https://example.com/page")
  = SearchConsole.normalizeUrl simple_URL_parse "https://example.com/page"
  /\ SearchConsole.normalizeUrl simple_URL_parse "https://example.com/page"
     = "sc-domain:example.com".
Proof.
  split; [|vm_compute; reflexivity].
  exact (proj1 (normalizeUrl_idempotent simple_URL_parse "https://example.com/page"
                  simple_URL_parse_sc_domain)).
Defined.

End SearchConsoleExtras.

Module EnvironmentProofs.
Import JSFacts Accounts AccountsSpec AccountsNotions Environment EnvironmentNotions.
Import AccountsProofs.

Ltac conj := repeat match goal with |- _ /\ _ => split end.

Section Loading.

Variable World : Type.
Variable JSON_parse : string -> thrown + AccountsConfig.
Variable existsSync : string -> bool.
Variable readFileSync : string -> thrown + string.

Local Notation "'State'" := (Accounts.State World).
Local Notation "'fromEnvironment'" :=
  (Environment.fromEnvironment JSON_parse existsSync readFileSync).
Local Notation "'loadJson'" := (Environment.loadJson (World := World) JSON_parse).
Local Notation "'loadFile'" :=
  (Environment.loadFile (World := World) JSON_parse existsSync readFileSync).
Local Notation "'configured'" :=
  (EnvironmentNotions.configured JSON_parse existsSync readFileSync).
Local Notation "'fromJson'" := (EnvironmentNotions.fromJson JSON_parse).
Local Notation "'fromFile'" :=
  (EnvironmentNotions.fromFile JSON_parse existsSync readFileSync).

Lemma truthy_string_or x : truthy_string x = true -> x = Some (string_or x "").
Proof.
  destruct x as [text|]; [|discriminate].
  intro H. unfold string_or. now rewrite H.
Qed.

(** Adding a parsed account is registering it, but for the expiry that the
    record may carry. *)
Lemma add_eq (a : GSCAccount) (s : State) :
  (account <- new_account a ;; addAccount account) s
  = (inr tt,
     mkState
       (mkManager
          (Map_set string_dec (toLowerCase (email a)) (account_next (store s))
             (Map_set string_dec (id a) (account_next (store s))
                (accounts (manager s))))
          (Map_delete string_dec (toLowerCase (email a))
             (Map_delete string_dec (id a) (authClients (manager s))))
          (clientId (manager s)) (clientSecret (manager s)))
       (mkStore
          (fun l => if Nat.eqb l (account_next (store s)) then a
                    else account_at (store s) l)
          (S (account_next (store s)))
          (client_at (store s)) (client_next (store s)))
       (world s) (trace s)).
Proof.
  unfold addAccount, new_account, read_account, set_manager, set_store, bind, modify.
  simpl. rewrite Nat.eqb_refl. reflexivity.
Qed.

Lemma addAccounts_cons a l (s : State) :
  addAccounts (a :: l) s
  = addAccounts l (snd ((account <- new_account a ;; addAccount account) s)).
Proof.
  cbn [addAccounts].
  pose proof (add_eq a s) as E. unfold bind in *.
  destruct (new_account a s) as [[e|account] s0]; [discriminate|].
  destruct (addAccount account s0) as [[e|u] s1]; [discriminate|].
  reflexivity.
Qed.

Lemma addAccounts_app l1 l2 (s : State) :
  addAccounts (l1 ++ l2) s = addAccounts l2 (snd (addAccounts l1 s)).
Proof.
  revert s. induction l1 as [|a l1 IH]; intro s; [reflexivity|].
  simpl app. now rewrite !addAccounts_cons, IH.
Qed.

Lemma addAccounts_ok l (s : State) : fst (addAccounts l s) = inr tt.
Proof.
  revert s. induction l as [|a l IH]; intro s; [reflexivity|].
  rewrite addAccounts_cons. apply IH.
Qed.

Lemma addAccounts_accounts k l (s : State) :
  Map_get string_dec k (accounts (manager (snd (addAccounts l s))))
  = match writer k (map registration_of l) (account_next (store s)) with
    | Some v => Some v
    | None => Map_get string_dec k (accounts (manager s))
    end.
Proof.
  revert s. induction l as [|a l IH]; intro s; [reflexivity|].
  rewrite addAccounts_cons, IH, add_eq. simpl.
  destruct (writer k (map registration_of l) (S (account_next (store s))));
    [reflexivity|].
  rewrite !Map_get_set.
  destruct (string_dec k (toLowerCase (email a))); [reflexivity|].
  destruct (string_dec k (id a)); reflexivity.
Qed.

Lemma addAccounts_store l (s : State) v :
  account_at (store (snd (addAccounts l s))) v
  = if Nat.ltb v (account_next (store s)) then account_at (store s) v
    else match nth_error l (v - account_next (store s)) with
         | Some a => a
         | None => account_at (store s) v
         end.
Proof.
  revert s. induction l as [|a l IH]; intro s.
  - simpl. destruct (Nat.ltb v _); [reflexivity|].
    now destruct (v - account_next (store s))%nat.
  - rewrite addAccounts_cons, IH, add_eq. simpl.
    destruct (Nat.ltb_spec v (S (account_next (store s)))) as [L|L].
    + destruct (Nat.eqb_spec v (account_next (store s))) as [->|N].
      * rewrite Nat.ltb_irrefl, Nat.sub_diag. reflexivity.
      * destruct (Nat.ltb_spec v (account_next (store s))); [reflexivity|lia].
    + destruct (Nat.ltb_spec v (account_next (store s))); [lia|].
      replace (v - account_next (store s))%nat
        with (S (v - S (account_next (store s)))) by lia.
      simpl. destruct (nth_error l _); [reflexivity|].
      destruct (Nat.eqb_spec v (account_next (store s))); [lia|reflexivity].
Qed.

Lemma addAccounts_rest l (s : State) :
  let s' := snd (addAccounts l s) in
  clientId (manager s') = clientId (manager s)
  /\ clientSecret (manager s') = clientSecret (manager s)
  /\ (authClients (manager s) = [] -> authClients (manager s') = [])
  /\ client_at (store s') = client_at (store s)
  /\ world s' = world s
  /\ trace s' = trace s.
Proof.
  revert s. induction l as [|a l IH]; intro s; [simpl; conj; auto|].
  cbv zeta. rewrite addAccounts_cons.
  destruct (IH (snd ((account <- new_account a ;; addAccount account) s)))
    as (H1 & H2 & H3 & H4 & H5 & H6).
  rewrite add_eq in *. simpl in *.
  conj; try assumption. intro E. apply H3. now rewrite E.
Qed.

Lemma addAccounts_next l (s : State) :
  account_next (store (snd (addAccounts l s)))
  = (account_next (store s) + List.length l)%nat.
Proof.
  revert s. induction l as [|a l IH]; intro s; [simpl; lia|].
  rewrite addAccounts_cons, IH, add_eq. simpl. lia.
Qed.

(** The three sources add the configured accounts, in order, and throw
    nothing; what goes wrong in a source is written to the console. *)
Lemma loadJson_eq env (s : State) out :
  exists out',
    loadJson env (s, out) = (inr tt, (snd (addAccounts (fromJson env) s), out')).
Proof.
  unfold Environment.loadJson, EnvironmentNotions.fromJson.
  destruct (truthy_string (GSC_ACCOUNTS_JSON env)); [|now exists out].
  unfold try_catch, bind, outcome, on_manager, console_error, modify. simpl.
  destruct (JSON_parse _) as [e|config]; [eexists; reflexivity|].
  pose proof (addAccounts_ok (accounts_or_empty config) s) as Hok.
  destruct (addAccounts (accounts_or_empty config) s) as [[e|[]] s']; [discriminate|].
  now exists out.
Qed.

Lemma loadFile_eq env (s : State) out :
  exists out',
    loadFile env (s, out) = (inr tt, (snd (addAccounts (fromFile env) s), out')).
Proof.
  unfold Environment.loadFile, EnvironmentNotions.fromFile.
  destruct (truthy_string (GSC_ACCOUNTS_FILE env) && existsSync _)%bool;
    [|now exists out].
  unfold try_catch, bind, outcome, on_manager, console_error, modify. simpl.
  destruct (readFileSync _) as [e|text]; [eexists; reflexivity|].
  destruct (JSON_parse text) as [e|config]; [eexists; reflexivity|].
  pose proof (addAccounts_ok (accounts_or_empty config) s) as Hok.
  destruct (addAccounts (accounts_or_empty config) s) as [[e|[]] s']; [discriminate|].
  now exists out.
Qed.

Lemma loadSingle_eq env (s : State) out :
  loadSingle env (s, out) = (inr tt, (snd (addAccounts (single env) s), out)).
Proof.
  unfold loadSingle, single.
  destruct (truthy_string (GSC_REFRESH_TOKEN env)); [|reflexivity].
  cbv iota. rewrite addAccounts_cons. unfold on_manager. cbn [fst snd].
  rewrite !add_eq. reflexivity.
Qed.

Lemma fromEnvironment_eq env (w : World) :
  truthy_string (GOOGLE_CLIENT_ID env) = true ->
  truthy_string (GOOGLE_CLIENT_SECRET env) = true ->
  exists out,
    fromEnvironment env w
    = inr (snd (addAccounts (configured env)
                  (initial (string_or (GOOGLE_CLIENT_ID env) "")
                     (string_or (GOOGLE_CLIENT_SECRET env) "") w)), out).
Proof.
  intros Hi Hs. unfold Environment.fromEnvironment. cbv zeta.
  rewrite Hi, Hs. cbn [negb orb].
  set (s0 := initial _ _ w).
  destruct (loadJson_eq env s0 []) as [out1 E1].
  destruct (loadFile_eq env (snd (addAccounts (fromJson env) s0)) out1) as [out2 E2].
  unfold bind. rewrite E1, E2, loadSingle_eq.
  exists out2. unfold EnvironmentNotions.configured.
  now rewrite !addAccounts_app.
Qed.

(** X17.  [fromEnvironment] throws exactly when the client id or the
    client secret is unset or empty, and then the error that says so.
    Otherwise it returns a manager with that id and secret, an empty client
    cache and nothing done to the outside, whatever the other variables
    hold: a text that is no JSON or a file that cannot be read is written
    to the console and gives no account. *)
Theorem fromEnvironment_outcome env (w : World) :
  (truthy_string (GOOGLE_CLIENT_ID env) = false
   \/ truthy_string (GOOGLE_CLIENT_SECRET env) = false ->
   fromEnvironment env w = inl RequiredCredentials)
  /\ (truthy_string (GOOGLE_CLIENT_ID env) = true ->
      truthy_string (GOOGLE_CLIENT_SECRET env) = true ->
      exists s out,
        fromEnvironment env w = inr (s, out)
        /\ GOOGLE_CLIENT_ID env = Some (clientId (manager s))
        /\ GOOGLE_CLIENT_SECRET env = Some (clientSecret (manager s))
        /\ authClients (manager s) = []
        /\ trace s = []
        /\ world s = w
        /\ account_next (store s) = List.length (configured env))
  /\ (forall e, fromEnvironment env w = inl e -> e = RequiredCredentials).
Proof.
  assert (Hgood : truthy_string (GOOGLE_CLIENT_ID env) = true ->
      truthy_string (GOOGLE_CLIENT_SECRET env) = true ->
      exists s out,
        fromEnvironment env w = inr (s, out)
        /\ GOOGLE_CLIENT_ID env = Some (clientId (manager s))
        /\ GOOGLE_CLIENT_SECRET env = Some (clientSecret (manager s))
        /\ authClients (manager s) = []
        /\ trace s = []
        /\ world s = w
        /\ account_next (store s) = List.length (configured env)).
  { intros Hi Hs. destruct (fromEnvironment_eq env w Hi Hs) as [out E].
    eexists _, out. split; [exact E|].
    destruct (addAccounts_rest (configured env)
                (initial (string_or (GOOGLE_CLIENT_ID env) "")
                   (string_or (GOOGLE_CLIENT_SECRET env) "") w))
      as (H1 & H2 & H3 & _ & H5 & H6).
    rewrite H1, H2, H5, H6. simpl.
    conj; try reflexivity.
    - now apply truthy_string_or.
    - now apply truthy_string_or.
    - now apply H3.
    - rewrite addAccounts_next. reflexivity. }
  conj.
  - intros [H|H]; unfold Environment.fromEnvironment; cbv zeta; rewrite H;
      [reflexivity|].
    now destruct (truthy_string (GOOGLE_CLIENT_ID env)).
  - exact Hgood.
  - intros e He.
    destruct (truthy_string (GOOGLE_CLIENT_ID env)) eqn:Hi;
      [destruct (truthy_string (GOOGLE_CLIENT_SECRET env)) eqn:Hs|].
    + destruct (Hgood eq_refl eq_refl) as (s & out & E & _). congruence.
    + unfold Environment.fromEnvironment in He. cbv zeta in He.
      rewrite Hi, Hs in He. cbn [negb orb] in He. congruence.
    + unfold Environment.fromEnvironment in He. cbv zeta in He.
      rewrite Hi in He. cbn [negb orb] in He. congruence.
Qed.

Lemma nth_error_registration l j r :
  nth_error (map registration_of l) j = Some r ->
  exists a, nth_error l j = Some a /\ r = registration_of a.
Proof.
  rewrite nth_error_map. destruct (nth_error l j) as [a|]; [|discriminate].
  intros [= <-]. now exists a.
Qed.

(** X18.  The manager that [fromEnvironment] returns holds, at the
    addresses 0, 1, ..., the accounts of [GSC_ACCOUNTS_JSON], then those of
    the file, then the single account of [GSC_REFRESH_TOKEN].  A key (an id
    or a lower-cased e-mail) answers the last of them that has it, so the
    file overrides the variable and the single account overrides both; a
    key that none has answers nothing.  When [GSC_REFRESH_TOKEN] is set,
    "default" is the single account, with the e-mail of [GSC_EMAIL] or
    "default". *)
Theorem fromEnvironment_precedence env (w : World) s out :
  fromEnvironment env w = inr (s, out) ->
  (forall j a, nth_error (configured env) j = Some a -> account_at (store s) j = a)
  /\ (forall j a k,
        nth_error (configured env) j = Some a ->
        k = id a \/ k = toLowerCase (email a) ->
        exists l b,
          Map_get string_dec k (accounts (manager s)) = Some l
          /\ (j <= l)%nat
          /\ nth_error (configured env) l = Some b
          /\ (k = id b \/ k = toLowerCase (email b))
          /\ forall l' b', (l < l')%nat -> nth_error (configured env) l' = Some b' ->
               k <> id b' /\ k <> toLowerCase (email b'))
  /\ (forall k,
        (forall a, In a (configured env) -> k <> id a /\ k <> toLowerCase (email a)) ->
        Map_get string_dec k (accounts (manager s)) = None)
  /\ (truthy_string (GSC_REFRESH_TOKEN env) = true ->
        exists l,
          getAccount "default" s = Some l
          /\ account_at (store s) l
             = mkAccount "default" (string_or (GSC_EMAIL env) "default")
                 (string_or (GSC_REFRESH_TOKEN env) "") (GSC_ACCESS_TOKEN env) None).
Proof.
  intro H.
  assert (Hs : s = snd (addAccounts (configured env)
                          (initial (string_or (GOOGLE_CLIENT_ID env) "")
                             (string_or (GOOGLE_CLIENT_SECRET env) "") w))).
  { destruct (truthy_string (GOOGLE_CLIENT_ID env)) eqn:Hi;
      [destruct (truthy_string (GOOGLE_CLIENT_SECRET env)) eqn:Hc|].
    - destruct (fromEnvironment_eq env w Hi Hc) as [out' E]. congruence.
    - unfold Environment.fromEnvironment in H. cbv zeta in H.
      rewrite Hi, Hc in H. discriminate.
    - unfold Environment.fromEnvironment in H. cbv zeta in H.
      rewrite Hi in H. discriminate. }
  clear H.
  assert (Hstore : forall j a, nth_error (configured env) j = Some a ->
                     account_at (store s) j = a).
  { intros j a Hj. rewrite Hs, addAccounts_store. simpl.
    now rewrite Nat.sub_0_r, Hj. }
  assert (Hget : forall k, Map_get string_dec k (accounts (manager s))
                           = writer k (map registration_of (configured env)) 0).
  { intro k. rewrite Hs, addAccounts_accounts. simpl.
    now destruct (writer k _ 0). }
  assert (Hlast : forall j a k,
            nth_error (configured env) j = Some a ->
            k = id a \/ k = toLowerCase (email a) ->
            exists l b,
              Map_get string_dec k (accounts (manager s)) = Some l
              /\ (j <= l)%nat
              /\ nth_error (configured env) l = Some b
              /\ (k = id b \/ k = toLowerCase (email b))
              /\ forall l' b', (l < l')%nat ->
                   nth_error (configured env) l' = Some b' ->
                   k <> id b' /\ k <> toLowerCase (email b')).
  { intros j a k Hj Hk.
    assert (Hj' : nth_error (map registration_of (configured env)) j
                  = Some (registration_of a))
      by (rewrite nth_error_map, Hj; reflexivity).
    destruct (writer_written k _ 0 j (registration_of a) Hj') as (j0 & r0 & W & Hle & _).
    { simpl. tauto. }
    destruct (writer_Some _ _ _ _ W) as (j1 & r1 & E & Hj1 & Hk1 & Hafter).
    simpl in E. subst j1.
    destruct (nth_error_registration _ _ _ Hj1) as (b & Hb & ->).
    exists j0, b. rewrite Hget, W. simpl in Hk1.
    conj; try tauto; try reflexivity.
    intros l' b' Hl Hb'.
    assert (Hb'' : nth_error (map registration_of (configured env)) l'
                   = Some (registration_of b'))
      by (rewrite nth_error_map, Hb'; reflexivity).
    destruct (Hafter l' _ Hl Hb''). simpl in *. tauto. }
  conj.
  - exact Hstore.
  - exact Hlast.
  - intros k Hk. rewrite Hget.
    destruct (writer k _ 0) as [l|] eqn:W; [|reflexivity].
    destruct (writer_Some _ _ _ _ W) as (j & r & _ & Hj & Hw & _).
    destruct (nth_error_registration _ _ _ Hj) as (a & Ha & ->).
    destruct (Hk a (nth_error_In _ _ Ha)). simpl in Hw. tauto.
  - intro Ht.
    set (a := mkAccount "default" (string_or (GSC_EMAIL env) "default")
                (string_or (GSC_REFRESH_TOKEN env) "") (GSC_ACCESS_TOKEN env) None).
    assert (Hc : configured env = (fromJson env ++ fromFile env ++ [a])%list).
    { unfold EnvironmentNotions.configured, single. now rewrite Ht. }
    set (j := (List.length (fromJson env) + List.length (fromFile env))%nat).
    assert (Hj : nth_error (configured env) j = Some a).
    { rewrite Hc, app_assoc, nth_error_app2; rewrite length_app; [|unfold j; lia].
      unfold j. now rewrite Nat.sub_diag. }
    destruct (Hlast j a "default" Hj (or_introl eq_refl))
      as (l & b & Hm & Hle & Hb & _).
    assert (Hl : l = j).
    { assert (Hlt : (l < List.length (configured env))%nat)
        by (apply nth_error_Some; congruence).
      rewrite Hc, !length_app in Hlt. simpl in Hlt. unfold j in *. lia. }
    subst l. exists j. split; [|now apply Hstore].
    unfold getAccount. now rewrite Hm.
Qed.

End Loading.

(** ** Concrete runs *)

(** X18 at work: the variable holds no JSON, the file configures "main"
    and an account called "default", and the single account takes the
    name "default" over. *)
Lemma fromEnvironment_precedence_witness :
  exists s out l,
    Environment.fromEnvironment sample_JSON_parse sample_existsSync
      sample_readFileSync sample_env 1000000%Z = inr (s, out)
    /\ getAccount "default" s = Some l
    /\ account_at (store s) l = mkAccount "default" "default" "1//single" None None.
Proof.
  destruct (Environment.fromEnvironment sample_JSON_parse sample_existsSync
              sample_readFileSync sample_env 1000000%Z) as [e|[s out]] eqn:E.
  - exfalso. vm_compute in E. discriminate.
  - destruct (fromEnvironment_precedence Z sample_JSON_parse sample_existsSync
                sample_readFileSync sample_env 1000000%Z s out E)
      as (_ & _ & _ & Hd).
    destruct (Hd eq_refl) as (l & Hl & Ha).
    exists s, out, l. split; [reflexivity|]. split; [exact Hl|exact Ha].
Defined.

(** The sample environment gives three accounts, two of them listed, and
    one line on the console. *)
Example fromEnvironment_sample :
  match Environment.fromEnvironment sample_JSON_parse sample_existsSync
          sample_readFileSync sample_env 1000000%Z with
  | inr (s, out) =>
      listAccounts s = [("main", "Main@Gmail.com"); ("default", "default")]
      /\ getAccount "old@gmail.com" s = Some 1%nat
      /\ out = [("Failed to parse GSC_ACCOUNTS_JSON:", Error "Unexpected token")]
  | inl _ => False
  end.
Proof. vm_compute. repeat split. Qed.

End EnvironmentProofs.

Module ToolsProofs.
Import JSFacts Accounts AccountsSpec AccountsNotions Tools AccountsProofs AccountsExtras.

Ltac conj := repeat match goal with |- _ /\ _ => split end.

Section Handlers.

Variable World : Type.

Local Notation "'State'" := (Accounts.State World).

(** X19.  The [register_account] tool always succeeds; the total it
    reports is the number of accounts listed after the registration, which
    is at least one and at most one more than before (it can be less than
    before: a registration may take over the keys of other accounts). *)
Theorem register_account_total i e t a (s : State) :
  let s' := snd (registerAccount i e t a s) in
  register_account i e t a s = (inr (count s'), s')
  /\ (1 <= count s')%nat
  /\ (count s' <= S (count s))%nat.
Proof.
  intro s'.
  assert (Hrun : register_account i e t a s = (inr (count s'), s')).
  { unfold register_account, bind, get, ret. subst s'.
    rewrite registerAccount_register, register_eq. reflexivity. }
  assert (Hi : In i (map fst (listAccounts s'))).
  { destruct (listAccounts_spec World s') as (_ & _ & C).
    assert (Hget : Map_get string_dec i (accounts (manager s'))
                   = Some (account_next (store s))).
    { subst s'. rewrite registerAccount_register, register_eq. simpl.
      rewrite Map_get_set.
      destruct (string_dec i (toLowerCase e)); [reflexivity|apply Map_get_set_same]. }
    apply Map_get_In in Hget. specialize (C _ _ Hget).
    subst s'. rewrite registerAccount_register, register_eq in C. simpl in C.
    rewrite Nat.eqb_refl in C. simpl in C.
    rewrite registerAccount_register, register_eq. exact C. }
  conj; [exact Hrun|exact (listed_count World s' i Hi)|].
  destruct (listAccounts_spec World s') as (N & F & _).
  destruct (listAccounts_spec World s) as (_ & _ & C).
  assert (Hlen : S (count s) = List.length (i :: map fst (listAccounts s))).
  { simpl. unfold count. now rewrite length_map. }
  unfold count at 1. rewrite Hlen.
  transitivity (List.length (map fst (listAccounts s')));
    [rewrite length_map; apply Nat.le_refl|].
  apply NoDup_incl_length; [assumption|].
    intros i' I. apply in_map_iff in I. destruct I as ([i'' e'] & <- & I).
    destruct (F i'' e' I) as (k & v & Hin & Hid & _). simpl.
    revert Hin Hid. subst s'. rewrite registerAccount_register, register_eq. simpl.
    intros Hin Hid.
    destruct (Nat.eqb_spec v (account_next (store s))) as [->|Hv].
    + left. simpl in Hid. congruence.
    + right. apply Map_set_values in Hin. destruct Hin as [[_ ->]|Hin]; [contradiction|].
      apply Map_set_values in Hin. destruct Hin as [[_ ->]|Hin]; [contradiction|].
      rewrite <- Hid. exact (C k v Hin).
Qed.

End Handlers.
End ToolsProofs.
